(** * The trust-layer oracle of [server.js]: scorer, scan store, on-demand
      fulfilment and block sweep, embedded as Rocq functions.

    Layout: JavaScript primitives used by the source ([JS]), the data the
    source manipulates, the functions of [server.js] in source order, then
    the properties proved of them. *)

From Stdlib Require Import ZArith NArith List String Ascii Bool Lia.
Import ListNotations.

Local Open Scope string_scope.
Local Open Scope Z_scope.

(* ================================================================== *)
(** ** JavaScript primitives *)
(* ================================================================== *)

Module JS.

(** A Number is kept as the decimal literal it was read from: [Decimal neg m e]
    stands for the double nearest to (-1)^neg * m * 10^e.  The only
    arithmetic the source performs on such a value is the comparison with the
    literal [0.1] and the truthiness test of [||]; both are decided exactly
    below. *)
Inductive number : Type :=
| NaN
| Infinity (neg : bool)
| Decimal (neg : bool) (m : N) (e : Z).

(** The values a field of the collaborator's JSON answer can hold
    (arrays and nested objects left out), [VUndefined] for a missing field. *)
Inductive value : Type :=
| VUndefined
| VNull
| VBool (b : bool)
| VNumber (n : number)
| VString (s : string).

Definition zero : number := Decimal false 0 0.

(** [x] rounds to +0 or -0: the smallest positive double is 2^-1074, and the
    tie at 2^-1075 goes to the even neighbour, which is 0. *)
Definition rounds_to_zero (m : N) (e : Z) : bool :=
  if 0 <=? e then (Z.of_N m =? 0)
  else (Z.of_N m * 2 ^ 1075 <=? 10 ^ (- e)).

(** [ToBoolean]. *)
Definition ToBoolean (v : value) : bool :=
  match v with
  | VUndefined => false
  | VNull => false
  | VBool b => b
  | VNumber NaN => false
  | VNumber (Infinity _) => true
  | VNumber (Decimal _ m e) => negb (rounds_to_zero m e)
  | VString s => negb (s =? EmptyString)%string
  end.

(** [a || b]. *)
Definition or (a b : value) : value := if ToBoolean a then a else b.

(** [v === s] for a string literal [s]: equal types, equal code units. *)
Definition strict_eq (v : value) (s : string) : bool :=
  match v with
  | VString t => (t =? s)%string
  | _ => false
  end.

(** Strings are sequences of code units below 256. *)
Definition code (c : ascii) : Z := Z.of_N (N_of_ascii c).

(** StrWhiteSpaceChar, restricted to code units below 256:
    TAB, LF, VT, FF, CR, SP, NBSP. *)
Definition is_whitespace (c : ascii) : bool :=
  let n := code c in
  ((9 <=? n) && (n <=? 13)) || (n =? 32) || (n =? 160).

Definition is_digit (c : ascii) : bool :=
  let n := code c in (48 <=? n) && (n <=? 57).

Fixpoint trim_start (s : string) : string :=
  match s with
  | EmptyString => EmptyString
  | String c rest => if is_whitespace c then trim_start rest else s
  end.

(** DecimalDigits: the longest run of digits at the head of [s], folded into
    [acc]; returns the value, how many digits were read, and the rest. *)
Fixpoint read_digits (s : string) (acc : N) (count : Z) : N * Z * string :=
  match s with
  | String c rest =>
      if is_digit c
      then read_digits rest (10 * acc + N_of_ascii c - 48)%N (count + 1)
      else (acc, count, s)
  | EmptyString => (acc, count, s)
  end.

(** An optional sign at the head of [s]. *)
Definition read_sign (s : string) : bool * string :=
  match s with
  | String "-" rest => (true, rest)
  | String "+" rest => (false, rest)
  | _ => (false, s)
  end.

(** ExponentPart, when present and well formed; 0 otherwise (the prefix
    then ends before the exponent indicator). *)
Definition read_exponent (s : string) : Z :=
  match s with
  | String c rest =>
      if ((c =? "e") || (c =? "E"))%char then
        let '(neg, rest1) := read_sign rest in
        let '(ev, n, _) := read_digits rest1 0%N 0 in
        if 0 <? n then (if neg then - Z.of_N ev else Z.of_N ev) else 0
      else 0
  | EmptyString => 0
  end.

(** StrUnsignedDecimalLiteral, longest prefix. *)
Definition read_unsigned (neg : bool) (s : string) : number :=
  if prefix "Infinity" s then Infinity neg
  else
    let '(ip, n1, r1) := read_digits s 0%N 0 in
    match r1 with
    | String "." r1' =>
        let '(m, n2, r2) := read_digits r1' ip 0 in
        if (n1 =? 0) && (n2 =? 0) then NaN
        else Decimal neg m (read_exponent r2 - n2)
    | _ =>
        if n1 =? 0 then NaN
        else Decimal neg ip (read_exponent r1)
    end.

(** [parseFloat] on a string: trim leading white space, then the longest
    prefix that is a StrDecimalLiteral; [NaN] when there is none. *)
Definition parseFloat_string (s : string) : number :=
  let '(neg, rest) := read_sign (trim_start s) in
  read_unsigned neg rest.

(** [parseFloat(v)] is [parseFloat(ToString(v))].  For a Number,
    Number::toString produces digits that denote that very Number, so
    reading them back returns it; the other values go through the string
    [ToString] gives them. *)
Definition parseFloat (v : value) : number :=
  match v with
  | VUndefined => parseFloat_string "undefined"
  | VNull => parseFloat_string "null"
  | VBool true => parseFloat_string "true"
  | VBool false => parseFloat_string "false"
  | VNumber n => n
  | VString s => parseFloat_string s
  end.

(** [x > 0.1].  The literal [0.1] is the double D = 7205759403792794 / 2^56.
    Rounding to nearest is monotone and the tie between D and the next
    double goes to D (its significand is even), so the double nearest to
    m * 10^e exceeds D exactly when
    m * 10^e > (2 * 7205759403792794 + 1) / 2^57.
    Every comparison with [NaN] is false. *)
Definition gt_0_1 (x : number) : bool :=
  match x with
  | NaN => false
  | Infinity neg => negb neg
  | Decimal true _ _ => false
  | Decimal false m e =>
      if 0 <=? e
      then (14411518807585589 <? Z.of_N m * 10 ^ e * 2 ^ 57)
      else (14411518807585589 * 10 ^ (- e) <? Z.of_N m * 2 ^ 57)
  end.

(** [String.prototype.toLowerCase] on code units below 256: A-Z and the
    Latin-1 capitals U+00C0..U+00DE (U+00D7, the multiplication sign, is
    not a letter) move up by 32. *)
Definition lower_char (c : ascii) : ascii :=
  let n := code c in
  if ((65 <=? n) && (n <=? 90))
     || ((192 <=? n) && (n <=? 222) && negb (n =? 215))
  then ascii_of_N (N_of_ascii c + 32)
  else c.

Fixpoint toLowerCase (s : string) : string :=
  match s with
  | EmptyString => EmptyString
  | String c rest => String (lower_char c) (toLowerCase rest)
  end.

(** [Array.prototype.find]: the first element, in index order, that the
    predicate accepts; [undefined] when there is none. *)
Fixpoint find {A} (p : A -> bool) (l : list A) : option A :=
  match l with
  | [] => None
  | x :: rest => if p x then Some x else find p rest
  end.

(** [Array.prototype.slice(start)], the end left at the length: a negative
    [start] counts from the end, and both are clipped to the array. *)
Definition slice {A} (l : list A) (start : Z) : list A :=
  let len := Z.of_nat (List.length l) in
  let k := if start <? 0 then Z.max (len + start) 0 else Z.min start len in
  skipn (Z.to_nat k) l.

(** [Array.prototype.push], [shift] and [reverse], on the array's content. *)
Definition push {A} (l : list A) (x : A) : list A := (l ++ [x])%list.
Definition shift {A} (l : list A) : list A := tl l.
Definition reverse {A} (l : list A) : list A := rev l.

(** [Math.max] and [Math.min] on integers. *)
Definition Math_max (a b : Z) : Z := Z.max a b.
Definition Math_min (a b : Z) : Z := Z.min a b.

End JS.


(* ================================================================== *)
(** ** Data *)
(* ================================================================== *)

(** The collaborator's report for one address ([response.data.result[addr]]). *)
Module GoPlus.
Record result : Type := {
  is_honeypot : JS.value;
  is_open_source : JS.value;
  is_proxy : JS.value;
  is_mintable : JS.value;
  can_take_back_ownership : JS.value;
  buy_tax : JS.value;
  sell_tax : JS.value
}.
End GoPlus.

(** What [scanWithGoPlus] returns when it does not return [null]; the
    fallback object of the event handler has no [rawData]. *)
Record ScanResult : Type := {
  score : Z;
  isHoneypot : bool;
  isMintable : bool;
  ownerCanWithdraw : bool;
  rawData : option GoPlus.result
}.

(** An entry of [inMemoryDB.scans]; [block_number] and [deployer] are set by
    the sweep only. *)
Module Scan.
Record entry : Type := {
  contract_address : string;
  score : Z;
  is_honeypot : bool;
  is_mintable : bool;
  owner_can_withdraw : bool;
  block_number : option Z;
  deployer : option string;
  has_sbt : bool;
  scanned_at : string
}.
End Scan.

(** Calls that leave the process, in the order they were issued. *)
Inductive Event : Type :=
| EvAxiosGet (chainId : Z) (address : string)
| EvFulfillAudit (requestId : Z) (score : Z)
    (isHoneypot isMintable ownerCanWithdraw : bool) (gasLimit : Z)
| EvTxWait (hash : string)
| EvGetBlockNumber
| EvGetBlock (blockNumber : Z)
| EvGetTransaction (txHash : string)
| EvGetTransactionReceipt (txHash : string).

(** The module-level mutable state: [inMemoryDB.scans],
    [lastProcessedBlock], [isScanning]; [trace] records the outgoing calls. *)
Record State : Type := {
  scans : list Scan.entry;
  lastProcessedBlock : Z;
  isScanning : bool;
  trace : list Event
}.

Definition initial : State :=
  {| scans := []; lastProcessedBlock := 0; isScanning := false; trace := [] |}.

(** A promise settles one way or the other. *)
Inductive outcome (A : Type) : Type :=
| Resolves (a : A)
| Rejects (message : string).
Arguments Resolves {A} a.
Arguments Rejects {A} message.

Record Tx : Type := { from : string }.
Record Receipt : Type := { status : Z; contractAddress : option string }.
Record Block : Type := { transactions : list string }.
Record TxResponse : Type := { hash : string }.

(** Everything outside the process: the risk service, the chain client, the
    clock, and [others], what the callbacks that run while this one is
    suspended at an [await] do to the shared state. *)
Record World : Type := {
  axios_get : Z -> string -> outcome (string -> option GoPlus.result);
  contract_fulfillAudit : Z -> Z -> bool -> bool -> bool -> outcome TxResponse;
  tx_wait : string -> outcome Receipt;
  provider_getBlockNumber : outcome Z;
  provider_getBlock : Z -> outcome (option Block);
  provider_getTransaction : string -> outcome (option Tx);
  provider_getTransactionReceipt : string -> outcome (option Receipt);
  now : string;
  others : State -> State
}.

(* ================================================================== *)
(** ** Control: state, exceptions, suspension *)
(* ================================================================== *)

Inductive completion (A : Type) : Type :=
| Normal (a : A)
| Throw (message : string).
Arguments Normal {A} a.
Arguments Throw {A} message.

Definition M (A : Type) : Type := State -> completion A * State.

Definition ret {A} (a : A) : M A := fun s => (Normal a, s).

Definition bind {A B} (m : M A) (k : A -> M B) : M B :=
  fun s =>
    match m s with
    | (Normal a, s') => k a s'
    | (Throw e, s') => (Throw e, s')
    end.

Definition throw {A} (message : string) : M A := fun s => (Throw message, s).

(** [try { body } catch (error) { handler }]. *)
Definition try_catch {A} (body : M A) (handler : string -> M A) : M A :=
  fun s =>
    match body s with
    | (Normal a, s') => (Normal a, s')
    | (Throw e, s') => handler e s'
    end.

(** [... finally { cleanup }] around a computation: the cleanup runs on
    either completion, which is then passed on. *)
Definition finally {A} (body : M A) (cleanup : M unit) : M A :=
  fun s =>
    match body s with
    | (r, s') =>
        match cleanup s' with
        | (Normal _, s'') => (r, s'')
        | (Throw e, s'') => (Throw e, s'')
        end
    end.

Declare Scope js_scope.
Delimit Scope js_scope with js.
Notation "x <- m ;; k" := (bind m (fun x => k))
  (at level 61, m at next level, right associativity) : js_scope.
Notation "m ;; k" := (bind m (fun _ => k))
  (at level 61, right associativity) : js_scope.
Local Open Scope js_scope.

Definition get : M State := fun s => (Normal s, s).
Definition modify (f : State -> State) : M unit := fun s => (Normal tt, f s).

Definition emit (e : Event) : M unit :=
  modify (fun s => {| scans := scans s;
                      lastProcessedBlock := lastProcessedBlock s;
                      isScanning := isScanning s;
                      trace := (trace s ++ [e])%list |}).

Definition set_scans (l : list Scan.entry) : M unit :=
  modify (fun s => {| scans := l;
                      lastProcessedBlock := lastProcessedBlock s;
                      isScanning := isScanning s;
                      trace := trace s |}).

Definition set_lastProcessedBlock (n : Z) : M unit :=
  modify (fun s => {| scans := scans s;
                      lastProcessedBlock := n;
                      isScanning := isScanning s;
                      trace := trace s |}).

Definition set_isScanning (b : bool) : M unit :=
  modify (fun s => {| scans := scans s;
                      lastProcessedBlock := lastProcessedBlock s;
                      isScanning := b;
                      trace := trace s |}).

(** The settled promise as a completion. *)
Definition settle {A} (o : outcome A) : M A :=
  match o with
  | Resolves a => ret a
  | Rejects e => throw e
  end.

(** Assignment to a [const] binding. *)
Definition assign_const {A} (name : string) (_ : A) : M A :=
  throw "TypeError: Assignment to constant variable.".

(** Reading a property of [null] or [undefined]. *)
Definition property_of {A B} (o : option A) (field : A -> B) : M B :=
  match o with
  | Some a => ret (field a)
  | None => throw "TypeError: Cannot read properties of null"
  end.

(* ================================================================== *)
(** ** [inMemoryDB] *)
(* ================================================================== *)

Module inMemoryDB.

(** [this.scans.push(data); if (this.scans.length > 1000) this.scans.shift();] *)
Definition addScan (scans : list Scan.entry) (data : Scan.entry) : list Scan.entry :=
  let scans := JS.push scans data in
  if 1000 <? Z.of_nat (List.length scans) then JS.shift scans else scans.

(** [this.scans.find(s => s.contract_address.toLowerCase() === address.toLowerCase())] *)
Definition getScan (scans : list Scan.entry) (address : string) : option Scan.entry :=
  JS.find
    (fun s => (JS.toLowerCase (Scan.contract_address s) =? JS.toLowerCase address)%string)
    scans.

(** [getRecent: function (limit = 50) { return this.scans.slice(-limit).reverse(); }];
    [None] is a call without the argument. *)
Definition getRecent (scans : list Scan.entry) (limit : option Z) : list Scan.entry :=
  let limit := match limit with Some n => n | None => 50 end in
  JS.reverse (JS.slice scans (- limit)).

End inMemoryDB.

(** [inMemoryDB.addScan(data)] on the shared state. *)
Definition addScan (data : Scan.entry) : M unit :=
  s <- get ;; set_scans (inMemoryDB.addScan (scans s) data).

(* ================================================================== *)
(** ** The server's functions *)
(* ================================================================== *)

Section Server.

Variable w : World.

(** [await p]: [p] settles, and before this function resumes the other
    callbacks have had their turn. *)
Definition await {A} (p : M A) : M A :=
  fun s => let (r, s') := p s in (r, others w s').

(** An outgoing call: recorded, then settled by the world. *)
Definition call {A} (e : Event) (o : outcome A) : M A :=
  emit e ;; settle o.

Definition default_chainId : Z := 11155111.

(** Lines 69-87 of [scanWithGoPlus]: the score and the flags read off a
    report. *)
Definition score_report (result : GoPlus.result) : ScanResult :=
  let score := 100 in
  let score := if JS.strict_eq (GoPlus.is_honeypot result) "1" then score - 100 else score in
  let score := if JS.strict_eq (GoPlus.is_open_source result) "0" then score - 20 else score in
  let score := if JS.strict_eq (GoPlus.is_proxy result) "1" then score - 10 else score in
  let score := if JS.strict_eq (GoPlus.is_mintable result) "1" then score - 15 else score in
  let score := if JS.strict_eq (GoPlus.can_take_back_ownership result) "1" then score - 20 else score in
  let score :=
    if JS.gt_0_1 (JS.parseFloat (JS.or (GoPlus.buy_tax result) (JS.VNumber JS.zero)))
    then score - 15 else score in
  let score :=
    if JS.gt_0_1 (JS.parseFloat (JS.or (GoPlus.sell_tax result) (JS.VNumber JS.zero)))
    then score - 15 else score in
  let score := JS.Math_max 0 (JS.Math_min 100 score) in
  {| score := score;
     isHoneypot := JS.strict_eq (GoPlus.is_honeypot result) "1";
     isMintable := JS.strict_eq (GoPlus.is_mintable result) "1";
     ownerCanWithdraw := JS.strict_eq (GoPlus.can_take_back_ownership result) "1";
     rawData := Some result |}.

(** [async function scanWithGoPlus(address, chainId = 11155111)];
    [None] is the [null] it returns. *)
Definition scanWithGoPlus (address : string) (chainId : Z) : M (option ScanResult) :=
  try_catch
    (response <- await (call (EvAxiosGet chainId address) (axios_get w chainId address)) ;;
     match response (JS.toLowerCase address) with
     | None => ret None
     | Some result => ret (Some (score_report result))
     end)
    (fun error => ret None).

(** The [contract.on('AuditRequested', ...)] handler. *)
Definition onAuditRequested (requestId : Z) (target requester : string) (fee : Z) : M unit :=
  try_catch
    (scanResult <- await (scanWithGoPlus target default_chainId) ;;
     scanResult <-
       match scanResult with
       | None =>
           assign_const "scanResult"
             {| score := 50; isHoneypot := false; isMintable := false;
                ownerCanWithdraw := false; rawData := None |}
       | Some r => ret r
       end ;;
     tx <- await (call (EvFulfillAudit requestId (score scanResult) (isHoneypot scanResult)
                          (isMintable scanResult) (ownerCanWithdraw scanResult) 300000)
                       (contract_fulfillAudit w requestId (score scanResult)
                          (isHoneypot scanResult) (isMintable scanResult)
                          (ownerCanWithdraw scanResult))) ;;
     receipt <- await (call (EvTxWait (hash tx)) (tx_wait w (hash tx))) ;;
     if status receipt =? 1 then
       addScan {| Scan.contract_address := target;
                  Scan.score := score scanResult;
                  Scan.is_honeypot := isHoneypot scanResult;
                  Scan.is_mintable := isMintable scanResult;
                  Scan.owner_can_withdraw := ownerCanWithdraw scanResult;
                  Scan.block_number := None;
                  Scan.deployer := None;
                  Scan.has_sbt := true;
                  Scan.scanned_at := now w |}
     else ret tt)
    (fun error => ret tt).

(** [for (const x of xs) { body }]. *)
Fixpoint for_of {A} (xs : list A) (body : A -> M unit) : M unit :=
  match xs with
  | [] => ret tt
  | x :: rest => body x ;; for_of rest body
  end.

(** [for (let i = lo; i <= hi; i++) { await body(i); }] from [i] on, as
    long as [fuel] lasts; [hi - i + 1] is enough. *)
Fixpoint for_upto (fuel : nat) (i hi : Z) (body : Z -> M unit) : M unit :=
  match fuel with
  | O => ret tt
  | S fuel' =>
      if i <=? hi
      then await (body i) ;; for_upto fuel' (i + 1) hi body
      else ret tt
  end.

(** A string or [null] used as a condition. *)
Definition truthy (a : option string) : bool :=
  match a with
  | Some s => JS.ToBoolean (JS.VString s)
  | None => false
  end.

(** The body of the [for (const txHash of block.transactions)] loop of
    [scanBlock]. *)
Definition scanTransaction (blockNumber : Z) (txHash : string) : M unit :=
  tx <- await (call (EvGetTransaction txHash) (provider_getTransaction w txHash)) ;;
  receipt <- await (call (EvGetTransactionReceipt txHash)
                         (provider_getTransactionReceipt w txHash)) ;;
  match receipt with
  | Some receipt =>
      if truthy (contractAddress receipt) then
        let contractAddress := match contractAddress receipt with
                               | Some a => a | None => EmptyString end in
        deployer <- property_of tx from ;;
        scanResult <- await (scanWithGoPlus contractAddress default_chainId) ;;
        match scanResult with
        | Some scanResult =>
            addScan {| Scan.contract_address := contractAddress;
                       Scan.score := score scanResult;
                       Scan.is_honeypot := isHoneypot scanResult;
                       Scan.is_mintable := isMintable scanResult;
                       Scan.owner_can_withdraw := ownerCanWithdraw scanResult;
                       Scan.block_number := Some blockNumber;
                       Scan.deployer := Some deployer;
                       Scan.has_sbt := false;
                       Scan.scanned_at := now w |}
        | None => ret tt
        end
      else ret tt
  | None => ret tt
  end.

(** [async function scanBlock(blockNumber)]. *)
Definition scanBlock (blockNumber : Z) : M unit :=
  try_catch
    (block <- await (call (EvGetBlock blockNumber) (provider_getBlock w blockNumber)) ;;
     match block with
     | None => ret tt
     | Some block => for_of (transactions block) (scanTransaction blockNumber)
     end)
    (fun error => ret tt).

(** [if (lastProcessedBlock === 0) lastProcessedBlock = currentBlock - 1;] *)
Definition init_watermark (currentBlock : Z) : M unit :=
  s <- get ;;
  if lastProcessedBlock s =? 0
  then set_lastProcessedBlock (currentBlock - 1)
  else ret tt.

(** [if (currentBlock > lastProcessedBlock) { for (...) await scanBlock(blockNum);
    lastProcessedBlock = currentBlock; }]; the loop runs from
    [lastProcessedBlock + 1] up to [currentBlock], both read once. *)
Definition scan_range (currentBlock : Z) : M unit :=
  s <- get ;;
  if currentBlock >? lastProcessedBlock s then
    for_upto (Z.to_nat (currentBlock - lastProcessedBlock s))
             (lastProcessedBlock s + 1) currentBlock scanBlock ;;
    set_lastProcessedBlock currentBlock
  else ret tt.

(** The [try] block of [scanNewBlocks]. *)
Definition scanNewBlocks_try : M unit :=
  currentBlock <- await (call EvGetBlockNumber (provider_getBlockNumber w)) ;;
  init_watermark currentBlock ;;
  scan_range currentBlock.

(** [async function scanNewBlocks()]. *)
Definition scanNewBlocks : M unit :=
  s <- get ;;
  if isScanning s then ret tt
  else
    set_isScanning true ;;
    finally
      (try_catch scanNewBlocks_try (fun error => ret tt))
      (set_isScanning false).

End Server.

(* ================================================================== *)
(** ** Statements of the specification, and sample inputs *)
(* ================================================================== *)

(** The scoring rule as the specification words it: one penalty per flag,
    summed, the sum clamped into [0,100]. *)
Definition penalty (flagged : bool) (points : Z) : Z :=
  if flagged then points else 0.

Definition parses_above_tenth (v : JS.value) : bool :=
  JS.gt_0_1 (JS.parseFloat v).

Definition clamp (lo hi x : Z) : Z := Z.max lo (Z.min hi x).

Definition spec_score (r : GoPlus.result) : Z :=
  clamp 0 100
    (100
     - penalty (JS.strict_eq (GoPlus.is_honeypot r) "1") 100
     - penalty (JS.strict_eq (GoPlus.is_open_source r) "0") 20
     - penalty (JS.strict_eq (GoPlus.is_proxy r) "1") 10
     - penalty (JS.strict_eq (GoPlus.is_mintable r) "1") 15
     - penalty (JS.strict_eq (GoPlus.can_take_back_ownership r) "1") 20
     - penalty (parses_above_tenth (GoPlus.buy_tax r)) 15
     - penalty (parses_above_tenth (GoPlus.sell_tax r)) 15).

(** The report of the specification's scoring scenario. *)
Definition scenario_report : GoPlus.result :=
  {| GoPlus.is_honeypot := JS.VString "0";
     GoPlus.is_open_source := JS.VString "0";
     GoPlus.is_proxy := JS.VString "0";
     GoPlus.is_mintable := JS.VString "1";
     GoPlus.can_take_back_ownership := JS.VString "0";
     GoPlus.buy_tax := JS.VString "0.15";
     GoPlus.sell_tax := JS.VString "0" |}.

(** A honeypot that is clean on every other count. *)
Definition honeypot_report : GoPlus.result :=
  {| GoPlus.is_honeypot := JS.VString "1";
     GoPlus.is_open_source := JS.VString "1";
     GoPlus.is_proxy := JS.VString "0";
     GoPlus.is_mintable := JS.VString "0";
     GoPlus.can_take_back_ownership := JS.VString "0";
     GoPlus.buy_tax := JS.VString "0";
     GoPlus.sell_tax := JS.VString "0" |}.

Definition with_buy_tax (v : JS.value) (r : GoPlus.result) : GoPlus.result :=
  {| GoPlus.is_honeypot := GoPlus.is_honeypot r;
     GoPlus.is_open_source := GoPlus.is_open_source r;
     GoPlus.is_proxy := GoPlus.is_proxy r;
     GoPlus.is_mintable := GoPlus.is_mintable r;
     GoPlus.can_take_back_ownership := GoPlus.can_take_back_ownership r;
     GoPlus.buy_tax := v;
     GoPlus.sell_tax := GoPlus.sell_tax r |}.

Definition with_sell_tax (v : JS.value) (r : GoPlus.result) : GoPlus.result :=
  {| GoPlus.is_honeypot := GoPlus.is_honeypot r;
     GoPlus.is_open_source := GoPlus.is_open_source r;
     GoPlus.is_proxy := GoPlus.is_proxy r;
     GoPlus.is_mintable := GoPlus.is_mintable r;
     GoPlus.can_take_back_ownership := GoPlus.can_take_back_ownership r;
     GoPlus.buy_tax := GoPlus.buy_tax r;
     GoPlus.sell_tax := v |}.

(** A tax field that is missing, empty, or not a number. *)
Definition tax_unusable (v : JS.value) : Prop :=
  v = JS.VUndefined \/ v = JS.VString EmptyString \/ JS.parseFloat v = JS.NaN.

(** A world in which every outside call fails and nothing else runs. *)
Definition offline : World :=
  {| axios_get := fun _ _ => Rejects "ECONNREFUSED";
     contract_fulfillAudit := fun _ _ _ _ _ => Rejects "ECONNREFUSED";
     tx_wait := fun _ => Rejects "ECONNREFUSED";
     provider_getBlockNumber := Rejects "ECONNREFUSED";
     provider_getBlock := fun _ => Rejects "ECONNREFUSED";
     provider_getTransaction := fun _ => Rejects "ECONNREFUSED";
     provider_getTransactionReceipt := fun _ => Rejects "ECONNREFUSED";
     now := "2024-01-01T00:00:00.000Z";
     others := fun s => s |}.

(** The risk service answers with [report] for [address] and has nothing on
    any other address. *)
Definition with_report (address : string) (report : GoPlus.result) (w : World) : World :=
  {| axios_get := fun _ _ =>
       Resolves (fun key => if (key =? JS.toLowerCase address)%string
                            then Some report else None);
     contract_fulfillAudit := contract_fulfillAudit w;
     tx_wait := tx_wait w;
     provider_getBlockNumber := provider_getBlockNumber w;
     provider_getBlock := provider_getBlock w;
     provider_getTransaction := provider_getTransaction w;
     provider_getTransactionReceipt := provider_getTransactionReceipt w;
     now := now w;
     others := others w |}.

(** The risk service answers, with no entry for any address. *)
Definition with_no_report (w : World) : World :=
  {| axios_get := fun _ _ => Resolves (fun _ => None);
     contract_fulfillAudit := contract_fulfillAudit w;
     tx_wait := tx_wait w;
     provider_getBlockNumber := provider_getBlockNumber w;
     provider_getBlock := provider_getBlock w;
     provider_getTransaction := provider_getTransaction w;
     provider_getTransactionReceipt := provider_getTransactionReceipt w;
     now := now w;
     others := others w |}.

(** The same world with other callbacks doing [f] at every suspension. *)
Definition with_others (f : State -> State) (w : World) : World :=
  {| axios_get := axios_get w;
     contract_fulfillAudit := contract_fulfillAudit w;
     tx_wait := tx_wait w;
     provider_getBlockNumber := provider_getBlockNumber w;
     provider_getBlock := provider_getBlock w;
     provider_getTransaction := provider_getTransaction w;
     provider_getTransactionReceipt := provider_getTransactionReceipt w;
     now := now w;
     others := f |}.

(** The same world with nothing else running. *)
Definition quiet (w : World) : World := with_others (fun s => s) w.

(** The same world with the chain head at [H]. *)
Definition with_head (H : outcome Z) (w : World) : World :=
  {| axios_get := axios_get w;
     contract_fulfillAudit := contract_fulfillAudit w;
     tx_wait := tx_wait w;
     provider_getBlockNumber := H;
     provider_getBlock := provider_getBlock w;
     provider_getTransaction := provider_getTransaction w;
     provider_getTransactionReceipt := provider_getTransactionReceipt w;
     now := now w;
     others := others w |}.

(** A world whose chain accepts every transaction, reporting [st] as the
    receipt's status, and whose blocks are empty; the risk service is down. *)
Definition chain_up (st : Z) : World :=
  {| axios_get := fun _ _ => Rejects "ECONNREFUSED";
     contract_fulfillAudit := fun _ _ _ _ _ => Resolves {| hash := "0xfeed" |};
     tx_wait := fun _ => Resolves {| status := st; contractAddress := None |};
     provider_getBlockNumber := Resolves 103;
     provider_getBlock := fun _ => Resolves (Some {| transactions := [] |});
     provider_getTransaction := fun _ => Resolves None;
     provider_getTransactionReceipt := fun _ => Resolves None;
     now := "2024-01-01T00:00:00.000Z";
     others := fun s => s |}.

Definition sample_address : string := "0xAbC0000000000000000000000000000000000001".

(** The store's capacity, the N of the specification. *)
Definition capacity : nat := 1000.

(** The last [n] elements of a list, in order. *)
Definition lastn {A} (n : nat) (l : list A) : list A :=
  skipn (List.length l - n) l.

(** [addScan] called once per element of [xs], in order, on the store [scans]. *)
Definition add_all (xs : list Scan.entry) (scans : list Scan.entry) : list Scan.entry :=
  fold_left inMemoryDB.addScan xs scans.

(** Two code units that are the same letter: equal, or an ASCII capital and
    its small letter. *)
Definition is_ascii_capital (c : ascii) : bool :=
  (65 <=? JS.code c) && (JS.code c <=? 90).

Definition small_of (c : ascii) : ascii := ascii_of_N (N_of_ascii c + 32).

Definition same_letter (c d : ascii) : Prop :=
  c = d
  \/ (is_ascii_capital c = true /\ d = small_of c)
  \/ (is_ascii_capital d = true /\ c = small_of d).

(** Two strings that differ in the case of ASCII letters only. *)
Inductive eq_ignoring_case : string -> string -> Prop :=
| eic_nil : eq_ignoring_case EmptyString EmptyString
| eic_cons c d s t :
    same_letter c d -> eq_ignoring_case s t ->
    eq_ignoring_case (String c s) (String d t).

(** [address] names the contract of entry [x]. *)
Definition names (address : string) (x : Scan.entry) : Prop :=
  JS.toLowerCase (Scan.contract_address x) = JS.toLowerCase address.

(** The two entries of the specification's lookup scenario. *)
Definition entryA : Scan.entry :=
  {| Scan.contract_address := sample_address;
     Scan.score := 80;
     Scan.is_honeypot := false;
     Scan.is_mintable := false;
     Scan.owner_can_withdraw := false;
     Scan.block_number := None;
     Scan.deployer := None;
     Scan.has_sbt := true;
     Scan.scanned_at := "2024-01-01T00:00:00.000Z" |}.

Definition entryB : Scan.entry :=
  {| Scan.contract_address := sample_address;
     Scan.score := 40;
     Scan.is_honeypot := false;
     Scan.is_mintable := true;
     Scan.owner_can_withdraw := false;
     Scan.block_number := None;
     Scan.deployer := None;
     Scan.has_sbt := true;
     Scan.scanned_at := "2024-01-02T00:00:00.000Z" |}.

(** One entry more than the store holds: [entryA], then 1000 times [entryB]. *)
Definition overfull : list Scan.entry := entryA :: repeat entryB 1000.

(** The block numbers that were fetched, in order. *)
Definition scanned_blocks (t : list Event) : list Z :=
  flat_map (fun e => match e with EvGetBlock n => [n] | _ => [] end) t.

(** How many transactions were submitted to the contract. *)
Definition fulfill_count (t : list Event) : nat :=
  List.length (filter (fun e => match e with EvFulfillAudit _ _ _ _ _ _ => true | _ => false end) t).

Definition is_getBlock (e : Event) : bool :=
  match e with EvGetBlock _ => true | _ => false end.

(** [count] consecutive block numbers from [i]. *)
Fixpoint block_range (count : nat) (i : Z) : list Z :=
  match count with
  | O => []
  | S count' => i :: block_range count' (i + 1)
  end.

(** One firing of the 12-second timer in world [w], run to completion, and
    a sequence of firings, each in the world of its time. *)
Definition tick (w : World) (s : State) : State := snd (scanNewBlocks w s).

Definition run_ticks (ws : list World) (s : State) : State :=
  fold_left (fun s w => tick w s) ws s.

(** What runs while a tick is suspended leaves the sweep's own variables
    and the record of fetched blocks alone: nothing but [scanNewBlocks]
    writes [lastProcessedBlock] or [isScanning], nothing but [scanBlock]
    fetches a block. *)
Definition sweep_private (w : World) : Prop :=
  forall s, isScanning s = true ->
    isScanning (others w s) = true
    /\ lastProcessedBlock (others w s) = lastProcessedBlock s
    /\ scanned_blocks (trace (others w s)) = scanned_blocks (trace s).

(** Block heights are not negative. *)
Definition head_nonneg (w : World) : Prop :=
  forall H, provider_getBlockNumber w = Resolves H -> 0 <= H.

(** The heads read by the ticks whose read succeeded, in order. *)
Definition heads (ws : list World) : list Z :=
  flat_map (fun w => match provider_getBlockNumber w with
                     | Resolves H => [H]
                     | Rejects _ => []
                     end) ws.

(** A progression of heights: no later one is below an earlier one. *)
Definition nondecreasing (l : list Z) : Prop :=
  forall i j a b, (i <= j)%nat ->
    nth_error l i = Some a -> nth_error l j = Some b -> a <= b.

(** Two runs of the same code started in one state that satisfies [P]:
    they return the same and end in the same state, which satisfies [Q]. *)
Definition lockstep {A} (P Q : State -> Prop) (m m' : M A) : Prop :=
  forall s, P s -> m s = m' s /\ Q (snd (m s)).

(** A tick in progress: the flag is up, the watermark is [L], the blocks
    fetched so far are [T]. *)
Definition sweeping (L : Z) (T : list Z) (s : State) : Prop :=
  isScanning s = true /\ lastProcessedBlock s = L /\ scanned_blocks (trace s) = T.

(** The watermark a tick works from, given the one it finds and the head. *)
Definition start_of (found H : Z) : Z := if found =? 0 then H - 1 else found.

(** Three firings: the head at 100, a failed read, the head at 103. *)
Definition three_ticks : list World :=
  [with_head (Resolves 100) (chain_up 1);
   with_head (Rejects "ETIMEDOUT") (chain_up 1);
   chain_up 1].

(** A chain at height 103 whose block 103 holds one transaction, the
    deployment of [sample_address], on which the risk service returns the
    report of the scoring scenario. *)
Definition deployment_world : World :=
  {| axios_get := fun _ _ =>
       Resolves (fun key => if (key =? JS.toLowerCase sample_address)%string
                            then Some scenario_report else None);
     contract_fulfillAudit := fun _ _ _ _ _ => Resolves {| hash := "0xfeed" |};
     tx_wait := fun _ => Resolves {| status := 1; contractAddress := None |};
     provider_getBlockNumber := Resolves 103;
     provider_getBlock := fun n =>
       Resolves (Some {| transactions := if n =? 103 then ["0xaa"] else [] |});
     provider_getTransaction := fun _ => Resolves (Some {| from := "0xd0" |});
     provider_getTransactionReceipt := fun _ =>
       Resolves (Some {| status := 1; contractAddress := Some sample_address |});
     now := "2024-01-01T00:00:00.000Z";
     others := fun s => s |}.

(** A code unit that cannot begin a number: not white space, not a digit,
    not a sign, not a point, and not the I of Infinity. *)
Definition cannot_start_number (c : ascii) : bool :=
  negb (JS.is_whitespace c) && negb (JS.is_digit c)
  && negb (c =? "+")%char && negb (c =? "-")%char
  && negb (c =? ".")%char && negb (c =? "I")%char.

(* ================================================================== *)
(** ** The read API *)
(* ================================================================== *)

Module JSGlobal.

(** The value of a code unit as a digit: 0-9, then a-z or A-Z for 10-35. *)
Definition digit_of (c : ascii) : option Z :=
  let n := JS.code c in
  if (48 <=? n) && (n <=? 57) then Some (n - 48)
  else if (97 <=? n) && (n <=? 122) then Some (n - 87)
  else if (65 <=? n) && (n <=? 90) then Some (n - 55)
  else None.

(** The longest run of radix-[radix] digits at the head of [s], folded into
    [acc]; returns the value and how many digits were read. *)
Fixpoint read_radix (radix : Z) (s : string) (acc : Z) (count : Z) : Z * Z :=
  match s with
  | String c rest =>
      match digit_of c with
      | Some v =>
          if v <? radix
          then read_radix radix rest (acc * radix + v) (count + 1)
          else (acc, count)
      | None => (acc, count)
      end
  | EmptyString => (acc, count)
  end.

(** A leading [0x] or [0X] switches to radix 16 and is dropped. *)
Definition strip_prefix (s : string) : Z * string :=
  match s with
  | String "0" (String c rest) =>
      if ((c =? "x") || (c =? "X"))%char then (16, rest) else (10, s)
  | _ => (10, s)
  end.

(** [parseInt(string)] without a radix: trim leading white space, take the
    sign, strip a hexadecimal prefix, read the digits; [None] is [NaN].
    [Some n] stands for the Number nearest to the integer [n]; the source
    tests it for truthiness and passes it to [slice], and on both the
    integer and its nearest Number agree (a non-zero integer rounds to a
    non-zero Number, and one beyond 2^53 is beyond any array length). *)
Definition parseInt_string (s : string) : option Z :=
  let '(neg, s1) := JS.read_sign (JS.trim_start s) in
  let '(radix, s2) := strip_prefix s1 in
  let '(v, count) := read_radix radix s2 0 0 in
  if count =? 0 then None else Some (if neg then - v else v).

(** [parseInt(v)] for a query parameter: a string, or [undefined] when the
    parameter is absent, which reads as the string "undefined". *)
Definition parseInt (v : option string) : option Z :=
  match v with
  | Some s => parseInt_string s
  | None => parseInt_string "undefined"
  end.

(** [n || 50] for the result of [parseInt]: [NaN] and 0 are falsy. *)
Definition or_50 (n : option Z) : Z :=
  match n with
  | Some n => if n =? 0 then 50 else n
  | None => 50
  end.

End JSGlobal.

(** What a handler sends: [res.json(body)], or
    [res.status(500).json({ success: false, error })]. *)
Inductive http (B : Type) : Type :=
| Json (body : B)
| Status500 (error : string).
Arguments Json {B} body.
Arguments Status500 {B} error.

Module RecentScans.
Record body : Type := {
  success : bool;
  count : Z;
  contracts : list Scan.entry
}.
End RecentScans.

(** The handler of [GET /api/recent-scans]; [query_limit] is
    [req.query.limit]. *)
Definition api_recent_scans (query_limit : option string) : M (http RecentScans.body) :=
  try_catch
    (let limit := JSGlobal.or_50 (JSGlobal.parseInt query_limit) in
     s <- get ;;
     let scans := inMemoryDB.getRecent (scans s) (Some limit) in
     ret (Json {| RecentScans.success := true;
                  RecentScans.count := Z.of_nat (List.length scans);
                  RecentScans.contracts := scans |}))
    (fun error => ret (Status500 error)).

(** The struct [getAuditData] returns. *)
Module OnChain.
Record audit : Type := {
  score : Z;
  isHoneypot : bool;
  isMintable : bool;
  ownerCanWithdraw : bool;
  timestamp : Z;
  metadataURI : string
}.
End OnChain.

(** The contract's view functions the API reads; these calls are not
    recorded in the trace. *)
Record Views : Type := {
  contract_tokenOf : string -> outcome Z;
  contract_getAuditData : Z -> outcome OnChain.audit
}.

(** The [auditData] of a status answer: built from the chain's struct and
    the token id (each integer shown through [Number]), or from a store
    entry. *)
Inductive AuditData : Type :=
| FromChain (onChainData : OnChain.audit) (tokenId : Z)
| FromStore (score : Z) (isHoneypot isMintable ownerCanWithdraw : bool)
    (scannedAt : string).

Module ContractStatus.
Record body : Type := {
  success : bool;
  address : string;
  hasSBT : bool;
  auditData : option AuditData
}.
End ContractStatus.

(** The handler of [GET /api/contract-status/:address]. *)
Definition api_contract_status (w : World) (v : Views) (address : string)
  : M (http ContractStatus.body) :=
  try_catch
    (tokenId <- await w (settle (contract_tokenOf v address)) ;;
     let hasSBT := tokenId >? 0 in
     auditData <-
       (if hasSBT then
          onChainData <- await w (settle (contract_getAuditData v tokenId)) ;;
          ret (Some (FromChain onChainData tokenId))
        else
          s <- get ;;
          match inMemoryDB.getScan (scans s) address with
          | Some dbData =>
              ret (Some (FromStore (Scan.score dbData) (Scan.is_honeypot dbData)
                           (Scan.is_mintable dbData) (Scan.owner_can_withdraw dbData)
                           (Scan.scanned_at dbData)))
          | None => ret None
          end) ;;
     ret (Json {| ContractStatus.success := true;
                  ContractStatus.address := address;
                  ContractStatus.hasSBT := hasSBT;
                  ContractStatus.auditData := auditData |}))
    (fun error => ret (Status500 error)).

Module Health.
Record body : Type := {
  success : bool;
  status : string;
  timestamp : string;
  database : string;
  scans_stored : Z
}.
End Health.

(** The handler of [GET /api/health]. *)
Definition api_health (w : World) : M (http Health.body) :=
  s <- get ;;
  ret (Json {| Health.success := true;
               Health.status := "healthy";
               Health.timestamp := now w;
               Health.database := "in-memory";
               Health.scans_stored := Z.of_nat (List.length (scans s)) |}).

(* ================================================================== *)
(** ** Further statements and sample inputs *)
(* ================================================================== *)

(** An entry as the on-demand handler builds it for [target]. *)
Definition audit_entry (target : string) (e : Scan.entry) : Prop :=
  Scan.contract_address e = target
  /\ Scan.has_sbt e = true
  /\ Scan.block_number e = None
  /\ Scan.deployer e = None
  /\ 0 <= Scan.score e <= 100
  /\ (Scan.is_honeypot e = true -> Scan.score e = 0).

(** An entry as the sweep builds it for a contract created in block
    [blockNumber]. *)
Definition sweep_entry (blockNumber : Z) (e : Scan.entry) : Prop :=
  Scan.contract_address e <> EmptyString
  /\ Scan.has_sbt e = false
  /\ Scan.block_number e = Some blockNumber
  /\ Scan.deployer e <> None
  /\ 0 <= Scan.score e <= 100
  /\ (Scan.is_honeypot e = true -> Scan.score e = 0).

Definition entry_ok (e : Scan.entry) : Prop :=
  (exists target, audit_entry target e) \/ (exists blockNumber, sweep_entry blockNumber e).

Definition store_ok (scans : list Scan.entry) : Prop :=
  (List.length scans <= capacity)%nat /\ Forall entry_ok scans.

(** What the process does over time: it handles an [AuditRequested] event,
    or the timer fires, each in the world of its time. *)
Inductive Activity : Type :=
| Request (w : World) (requestId : Z) (target requester : string) (fee : Z)
| Timer (w : World).

Definition world_of (a : Activity) : World :=
  match a with
  | Request w _ _ _ _ => w
  | Timer w => w
  end.

Definition perform (a : Activity) (s : State) : State :=
  match a with
  | Request w requestId target requester fee =>
      snd (onAuditRequested w requestId target requester fee s)
  | Timer w => tick w s
  end.

Definition perform_all (l : list Activity) (s : State) : State :=
  fold_left (fun s a => perform a s) l s.

(** A computation keeps [Inv], and what it returns satisfies [V]. *)
Definition keeps {A} (Inv : State -> Prop) (m : M A) (V : A -> Prop) : Prop :=
  forall s, Inv s ->
    Inv (snd (m s)) /\ (forall a, fst (m s) = Normal a -> V a).

Definition is_fulfill (e : Event) : bool :=
  match e with EvFulfillAudit _ _ _ _ _ _ => true | _ => false end.

(** What [scanWithGoPlus] can return: [null], or a report scored. *)
Definition scored (r : option ScanResult) : Prop :=
  r = None \/ exists report, r = Some (score_report report).

(** The same world with block [blockNumber] holding the transactions [txs]. *)
Definition with_block (blockNumber : Z) (txs : list string) (w : World) : World :=
  {| axios_get := axios_get w;
     contract_fulfillAudit := contract_fulfillAudit w;
     tx_wait := tx_wait w;
     provider_getBlockNumber := provider_getBlockNumber w;
     provider_getBlock := fun n =>
       if n =? blockNumber then Resolves (Some {| transactions := txs |})
       else provider_getBlock w n;
     provider_getTransaction := provider_getTransaction w;
     provider_getTransactionReceipt := provider_getTransactionReceipt w;
     now := now w;
     others := others w |}.

(** Scanning the transaction [txHash] throws: its body or its receipt cannot
    be fetched, or the receipt names a new contract and the body is [null]. *)
Definition fails_at (w : World) (txHash : string) : Prop :=
  (exists e, provider_getTransaction w txHash = Rejects e)
  \/ (exists e, provider_getTransactionReceipt w txHash = Rejects e)
  \/ (provider_getTransaction w txHash = Resolves None
      /\ exists receipt,
           provider_getTransactionReceipt w txHash = Resolves (Some receipt)
           /\ truthy (contractAddress receipt) = true).

(** [deployment_world], except that the body of transaction 0xbb cannot be
    fetched. *)
Definition flaky_world : World :=
  {| axios_get := axios_get deployment_world;
     contract_fulfillAudit := contract_fulfillAudit deployment_world;
     tx_wait := tx_wait deployment_world;
     provider_getBlockNumber := provider_getBlockNumber deployment_world;
     provider_getBlock := provider_getBlock deployment_world;
     provider_getTransaction := fun h =>
       if (h =? "0xbb")%string then Rejects "ETIMEDOUT"
       else provider_getTransaction deployment_world h;
     provider_getTransactionReceipt := provider_getTransactionReceipt deployment_world;
     now := now deployment_world;
     others := others deployment_world |}.

(** A contract without a token, and one holding token 5. *)
Definition no_token : Views :=
  {| contract_tokenOf := fun _ => Resolves 0;
     contract_getAuditData := fun _ => Rejects "CALL_EXCEPTION" |}.

Definition token_five : Views :=
  {| contract_tokenOf := fun _ => Resolves 5;
     contract_getAuditData := fun _ =>
       Resolves {| OnChain.score := 80; OnChain.isHoneypot := false;
                   OnChain.isMintable := false; OnChain.ownerCanWithdraw := false;
                   OnChain.timestamp := 1700000000;
                   OnChain.metadataURI := "ipfs://audit" |} |}.

(** A day of the oracle: a request for [sample_address], a tick, a request
    the chain reverts, a tick whose head read fails. *)
Definition busy_day : list Activity :=
  [Request deployment_world 7 sample_address "0xd0" 1;
   Timer deployment_world;
   Request (with_report sample_address honeypot_report (chain_up 0)) 8 sample_address "0xd0" 1;
   Timer (with_head (Rejects "ETIMEDOUT") deployment_world)].

(** The test [getScan] applies to an entry. *)
Definition matches (address : string) (x : Scan.entry) : bool :=
  (JS.toLowerCase (Scan.contract_address x) =? JS.toLowerCase address)%string.

(** The [auditData] built from a store entry. *)
Definition store_view (dbData : Scan.entry) : AuditData :=
  FromStore (Scan.score dbData) (Scan.is_honeypot dbData) (Scan.is_mintable dbData)
    (Scan.owner_can_withdraw dbData) (Scan.scanned_at dbData).

(** What a run of ticks from the initial state has reached: nothing yet,
    or every block from the first head read up to the watermark, which is
    the last head read. *)
Definition covered (hs : list Z) (s : State) : Prop :=
  isScanning s = false
  /\ ((hs = []%list /\ lastProcessedBlock s = 0 /\ scanned_blocks (trace s) = []%list)
      \/ exists first pre,
           hd_error hs = Some first
           /\ hs = (pre ++ [lastProcessedBlock s])%list
           /\ first <= lastProcessedBlock s
           /\ scanned_blocks (trace s)
              = block_range (Z.to_nat (lastProcessedBlock s - first + 1)) first).


(* ================================================================== *)
(** ** Runs on concrete inputs *)
(* ================================================================== *)

Example parseFloat_015 : JS.parseFloat (JS.VString "0.15") = JS.Decimal false 15 (-2).
Proof. reflexivity. Qed.
Example parseFloat_exp : JS.parseFloat (JS.VString "  -1.5e3x") = JS.Decimal true 15 2.
Proof. reflexivity. Qed.
Example parseFloat_dot : JS.parseFloat (JS.VString ".") = JS.NaN.
Proof. reflexivity. Qed.
Example parseFloat_5dot : JS.parseFloat (JS.VString "5.e") = JS.Decimal false 5 0.
Proof. reflexivity. Qed.
Example parseFloat_abc : JS.parseFloat (JS.VString "abc") = JS.NaN.
Proof. reflexivity. Qed.
Example gt_tenth_itself : JS.gt_0_1 (JS.parseFloat (JS.VString "0.1")) = false.
Proof. vm_compute. reflexivity. Qed.
Example gt_tenth_015 : JS.gt_0_1 (JS.parseFloat (JS.VString "0.15")) = true.
Proof. vm_compute. reflexivity. Qed.
Example lower_addr : JS.toLowerCase "0xAbCdEF01" = "0xabcdef01".
Proof. reflexivity. Qed.
Example gt_tenth_just_above :
  JS.gt_0_1 (JS.parseFloat (JS.VString "0.1000000000000000001")) = false
  /\ JS.gt_0_1 (JS.parseFloat (JS.VString "0.10000000000000002")) = true.
Proof. split; vm_compute; reflexivity. Qed.
Example parseFloat_infinity : JS.parseFloat (JS.VString "-Infinity!") = JS.Infinity true.
Proof. reflexivity. Qed.
Example parseFloat_undefined : JS.parseFloat JS.VUndefined = JS.NaN.
Proof. reflexivity. Qed.
Example slice_last_two : JS.slice [1; 2; 3] (-2) = [2; 3].
Proof. reflexivity. Qed.
Example slice_beyond : JS.slice [1; 2; 3] (-5) = [1; 2; 3].
Proof. reflexivity. Qed.

(** A fulfilled request: one scorer call, one transaction, one wait, one
    entry stored with [has_sbt = true]. *)
Example onAuditRequested_fulfilled :
  let s := snd (onAuditRequested deployment_world 7 sample_address "0xd0" 1 initial) in
  trace s = [EvAxiosGet default_chainId sample_address;
             EvFulfillAudit 7 50 false true false 300000;
             EvTxWait "0xfeed"]
  /\ map Scan.has_sbt (scans s) = [true]
  /\ map Scan.score (scans s) = [50].
Proof. cbv zeta. repeat split; vm_compute; reflexivity. Qed.

(** The first tick at head 103: block 103 alone is fetched, its deployment
    is scored and recorded with [has_sbt = false], nothing is submitted. *)
Example scanNewBlocks_first_tick :
  let s := tick deployment_world initial in
  trace s = [EvGetBlockNumber; EvGetBlock 103; EvGetTransaction "0xaa";
             EvGetTransactionReceipt "0xaa";
             EvAxiosGet default_chainId sample_address]
  /\ lastProcessedBlock s = 103
  /\ isScanning s = false
  /\ map Scan.block_number (scans s) = [Some 103]
  /\ map Scan.has_sbt (scans s) = [false].
Proof. cbv zeta. repeat split; vm_compute; reflexivity. Qed.

(** A second tick at the same head fetches nothing more. *)
Example scanNewBlocks_no_progress :
  scanned_blocks (trace (run_ticks [deployment_world; deployment_world] initial)) = [103].
Proof. vm_compute. reflexivity. Qed.

(** Called without a limit, [getRecent] returns the 50 newest entries. *)
Example getRecent_default :
  inMemoryDB.getRecent (repeat entryA 60 ++ [entryB]) None = entryB :: repeat entryA 49.
Proof. vm_compute. reflexivity. Qed.

(* ================================================================== *)
(** ** The scorer *)
(* ================================================================== *)

Lemma rounds_to_zero_not_above m e neg :
  JS.rounds_to_zero m e = true -> JS.gt_0_1 (JS.Decimal neg m e) = false.
Proof.
  unfold JS.rounds_to_zero, JS.gt_0_1. intros H.
  destruct neg; [reflexivity|].
  destruct (Z.leb_spec 0 e).
  - apply Z.eqb_eq in H. rewrite H. reflexivity.
  - apply Z.leb_le in H. apply Z.ltb_ge.
    assert (Hp : 0 < 10 ^ (- e)) by (apply Z.pow_pos_nonneg; lia).
    assert (Hm : 0 <= Z.of_N m) by lia.
    assert (H2 : 2 ^ 57 <= 2 ^ 1075) by (apply Z.pow_le_mono_r; lia).
    assert (H3 : Z.of_N m * 2 ^ 57 <= Z.of_N m * 2 ^ 1075)
      by (apply Z.mul_le_mono_nonneg_l; assumption).
    remember (10 ^ (- e)) as p. remember (Z.of_N m * 2 ^ 57) as a.
    remember (Z.of_N m * 2 ^ 1075) as b. lia.
Qed.

(** [parseFloat(v || 0) > 0.1] is [parseFloat(v) > 0.1]: a falsy [v] is
    replaced by 0, and its own reading is not above 0.1 either. *)
Lemma or_zero_above_tenth v :
  JS.gt_0_1 (JS.parseFloat (JS.or v (JS.VNumber JS.zero))) = parses_above_tenth v.
Proof.
  unfold parses_above_tenth, JS.or.
  destruct v as [| |b|n|s]; try reflexivity.
  - destruct b; reflexivity.
  - destruct n as [|neg|neg m e]; try reflexivity.
    simpl JS.ToBoolean. destruct (JS.rounds_to_zero m e) eqn:E; [|reflexivity].
    simpl. symmetry. apply rounds_to_zero_not_above. exact E.
  - simpl JS.ToBoolean. destruct (String.eqb_spec s EmptyString); [subst|]; reflexivity.
Qed.

Lemma score_report_spec (r : GoPlus.result) :
  score (score_report r) = spec_score r.
Proof.
  unfold score_report, spec_score, clamp, penalty, JS.Math_max, JS.Math_min.
  cbn [score]. rewrite !or_zero_above_tenth.
  destruct (JS.strict_eq (GoPlus.is_honeypot r) "1"),
           (JS.strict_eq (GoPlus.is_open_source r) "0"),
           (JS.strict_eq (GoPlus.is_proxy r) "1"),
           (JS.strict_eq (GoPlus.is_mintable r) "1"),
           (JS.strict_eq (GoPlus.can_take_back_ownership r) "1"),
           (parses_above_tenth (GoPlus.buy_tax r)),
           (parses_above_tenth (GoPlus.sell_tax r)); reflexivity.
Qed.

(** When the risk service answers with a report for the address,
    [scanWithGoPlus] returns that report scored. *)
Lemma scanWithGoPlus_report w address chainId response report s :
  axios_get w chainId address = Resolves response ->
  response (JS.toLowerCase address) = Some report ->
  fst (scanWithGoPlus w address chainId s) = Normal (Some (score_report report)).
Proof.
  intros Hget Hrep.
  unfold scanWithGoPlus, try_catch, bind, await, call, emit, modify, settle.
  rewrite Hget. cbn. rewrite Hrep. reflexivity.
Qed.

(** C2. For every report the collaborator returns, the score computed by
    [scanWithGoPlus] is 100 minus 100 for a honeypot, 20 for closed source,
    10 for a proxy, 15 for mintable, 20 for reclaimable ownership, 15 for a
    buy tax that parses above 0.1 and 15 for such a sell tax, clamped into
    [0,100]; the report of the specification's scenario scores 50. *)
Theorem scanWithGoPlus_score_rule :
  (forall w address chainId response report s,
      axios_get w chainId address = Resolves response ->
      response (JS.toLowerCase address) = Some report ->
      exists r,
        fst (scanWithGoPlus w address chainId s) = Normal (Some r)
        /\ score r = spec_score report)
  /\ score (score_report scenario_report) = 50.
Proof.
  split.
  - intros w address chainId response report s Hget Hrep.
    exists (score_report report). split.
    + eapply scanWithGoPlus_report; eassumption.
    + apply score_report_spec.
  - vm_compute. reflexivity.
Qed.

Lemma scanWithGoPlus_score_rule_witness :
  exists r,
    fst (scanWithGoPlus (with_report sample_address scenario_report offline)
           sample_address default_chainId initial) = Normal (Some r)
    /\ score r = 50.
Proof.
  destruct (proj1 scanWithGoPlus_score_rule
              (with_report sample_address scenario_report offline)
              sample_address default_chainId
              (fun key => if (key =? JS.toLowerCase sample_address)%string
                          then Some scenario_report else None)
              scenario_report initial eq_refl eq_refl) as [r [Hr Hs]].
  exists r. split; [exact Hr | exact Hs].
Defined.

(** C6. Whenever the report has [is_honeypot = "1"], the score that
    [scanWithGoPlus] returns is 0, whatever the other flags and taxes hold. *)
Theorem scanWithGoPlus_honeypot_zero :
  forall w address chainId response report s,
    axios_get w chainId address = Resolves response ->
    response (JS.toLowerCase address) = Some report ->
    GoPlus.is_honeypot report = JS.VString "1" ->
    exists r,
      fst (scanWithGoPlus w address chainId s) = Normal (Some r)
      /\ score r = 0 /\ isHoneypot r = true.
Proof.
  intros w address chainId response report s Hget Hrep Hhp.
  exists (score_report report). split; [|split].
  - eapply scanWithGoPlus_report; eassumption.
  - rewrite score_report_spec. unfold spec_score, clamp, penalty.
    rewrite Hhp. cbn [JS.strict_eq]. rewrite String.eqb_refl.
    destruct (JS.strict_eq (GoPlus.is_open_source report) "0"),
             (JS.strict_eq (GoPlus.is_proxy report) "1"),
             (JS.strict_eq (GoPlus.is_mintable report) "1"),
             (JS.strict_eq (GoPlus.can_take_back_ownership report) "1"),
             (parses_above_tenth (GoPlus.buy_tax report)),
             (parses_above_tenth (GoPlus.sell_tax report)); reflexivity.
  - unfold score_report. cbn [isHoneypot]. rewrite Hhp. reflexivity.
Qed.

Lemma scanWithGoPlus_honeypot_zero_witness :
  exists r,
    fst (scanWithGoPlus (with_report sample_address honeypot_report offline)
           sample_address default_chainId initial) = Normal (Some r)
    /\ score r = 0 /\ isHoneypot r = true.
Proof.
  exact (scanWithGoPlus_honeypot_zero
           (with_report sample_address honeypot_report offline)
           sample_address default_chainId
           (fun key => if (key =? JS.toLowerCase sample_address)%string
                       then Some honeypot_report else None)
           honeypot_report initial eq_refl eq_refl eq_refl).
Defined.

(** A string that begins with a code unit that cannot begin a number reads
    as NaN. *)
Lemma parseFloat_not_a_number c rest :
  cannot_start_number c = true -> JS.parseFloat (JS.VString (String c rest)) = JS.NaN.
Proof.
  destruct c as [b0 b1 b2 b3 b4 b5 b6 b7].
  destruct b0, b1, b2, b3, b4, b5, b6, b7; intros H;
    try (vm_compute in H; discriminate H); reflexivity.
Qed.

Lemma tax_unusable_not_above v : tax_unusable v -> parses_above_tenth v = false.
Proof.
  unfold parses_above_tenth.
  intros [-> | [-> | H]]; [reflexivity | reflexivity | rewrite H; reflexivity].
Qed.

(** C10. A buy or sell tax that is missing, empty, or reads as NaN costs no
    points: the score is the one the report gets with that tax written "0". *)
Theorem scanWithGoPlus_unusable_tax :
  forall report v,
    tax_unusable v ->
    score (score_report (with_buy_tax v report))
      = score (score_report (with_buy_tax (JS.VString "0") report))
    /\ score (score_report (with_sell_tax v report))
      = score (score_report (with_sell_tax (JS.VString "0") report)).
Proof.
  intros report v Hv.
  rewrite !score_report_spec. unfold spec_score. cbn [GoPlus.is_honeypot
    GoPlus.is_open_source GoPlus.is_proxy GoPlus.is_mintable
    GoPlus.can_take_back_ownership GoPlus.buy_tax GoPlus.sell_tax
    with_buy_tax with_sell_tax].
  rewrite (tax_unusable_not_above v Hv).
  change (parses_above_tenth (JS.VString "0")) with false.
  split; reflexivity.
Qed.

Lemma scanWithGoPlus_unusable_tax_witness :
  score (score_report (with_buy_tax (JS.VString "n/a") scenario_report)) = 65
  /\ score (score_report (with_sell_tax (JS.VString "n/a") scenario_report)) = 50.
Proof.
  destruct (scanWithGoPlus_unusable_tax scenario_report (JS.VString "n/a")
              (or_intror (or_intror eq_refl))) as [Hb Hs].
  split; [rewrite Hb | rewrite Hs]; vm_compute; reflexivity.
Defined.

(* ================================================================== *)
(** ** The scan store *)
(* ================================================================== *)

Section Store.

Local Open Scope nat_scope.
Local Open Scope list_scope.

Lemma capacity_Z : Z.of_nat capacity = 1000%Z.
Proof. reflexivity. Qed.

Lemma lastn_all {A} n (l : list A) : List.length l <= n -> lastn n l = l.
Proof.
  intros H. unfold lastn. replace (List.length l - n) with 0 by lia. reflexivity.
Qed.

Lemma length_lastn {A} n (l : list A) :
  List.length (lastn n l) = Nat.min n (List.length l).
Proof. unfold lastn. rewrite length_skipn. lia. Qed.

Lemma lastn_app_lastn {A} n (a b : list A) :
  lastn n (lastn n a ++ b) = lastn n (a ++ b).
Proof.
  unfold lastn.
  rewrite !length_app, length_skipn, !skipn_app, skipn_skipn, length_skipn.
  f_equal; f_equal; lia.
Qed.

Lemma addScan_lastn scans data :
  List.length scans <= capacity ->
  inMemoryDB.addScan scans data = lastn capacity (scans ++ [data]).
Proof.
  intros H. unfold inMemoryDB.addScan, JS.push, JS.shift.
  pose proof capacity_Z as HC.
  assert (HL : List.length (scans ++ [data]) = S (List.length scans))
    by (rewrite length_app; simpl; lia).
  destruct (Z.ltb_spec 1000 (Z.of_nat (List.length (scans ++ [data])))) as [Hgt|Hle].
  - unfold lastn. replace (List.length (scans ++ [data]) - capacity) with 1 by lia.
    destruct (scans ++ [data]); reflexivity.
  - symmetry. apply lastn_all. lia.
Qed.

Lemma addScan_length scans data :
  List.length scans <= capacity ->
  List.length (inMemoryDB.addScan scans data) <= capacity.
Proof.
  intros H. rewrite addScan_lastn by exact H. rewrite length_lastn. lia.
Qed.

Lemma add_all_lastn xs : forall scans,
  List.length scans <= capacity ->
  add_all xs scans = lastn capacity (scans ++ xs).
Proof.
  induction xs as [|x xs IH]; intros scans H.
  - simpl. rewrite app_nil_r. symmetry. apply lastn_all. exact H.
  - change (add_all (x :: xs) scans) with (add_all xs (inMemoryDB.addScan scans x)).
    rewrite IH by (apply addScan_length; exact H).
    rewrite addScan_lastn by exact H.
    rewrite lastn_app_lastn, <- app_assoc. reflexivity.
Qed.

(** C3. The store never holds more than 1000 entries, whatever is added;
    it holds the 1000 most recent additions in insertion order; after
    1000 + k additions (k up to 1000) it holds exactly 1000 entries: the
    last 1000 - k of the first thousand, followed by the k most recent. *)
Theorem addScan_oldest_first_eviction :
  (forall scans data,
      List.length scans <= capacity ->
      List.length (inMemoryDB.addScan scans data) <= capacity)
  /\ (forall xs,
         List.length (add_all xs []) <= capacity
         /\ add_all xs [] = lastn capacity xs)
  /\ (forall xs k,
         List.length xs = capacity + k -> k <= capacity ->
         List.length (add_all xs []) = capacity
         /\ add_all xs [] = lastn (capacity - k) (firstn capacity xs) ++ lastn k xs).
Proof.
  split; [exact addScan_length|]. split.
  - intros xs. rewrite (add_all_lastn xs []) by (cbn [List.length]; lia). cbn [app].
    split; [rewrite length_lastn; lia | reflexivity].
  - intros xs k Hlen Hk.
    rewrite (add_all_lastn xs []) by (cbn [List.length]; lia). cbn [app]. split.
    + rewrite length_lastn. lia.
    + unfold lastn. rewrite length_firstn.
      replace (List.length xs - capacity) with k by lia.
      replace (Nat.min capacity (List.length xs) - (capacity - k)) with k by lia.
      replace (List.length xs - k) with capacity by lia.
      rewrite <- (firstn_skipn capacity xs) at 1.
      rewrite skipn_app, length_firstn.
      replace (k - Nat.min capacity (List.length xs)) with 0 by lia.
      reflexivity.
Qed.

Lemma addScan_oldest_first_eviction_witness :
  List.length (add_all overfull []) = capacity
  /\ add_all overfull [] = lastn (capacity - 1) (firstn capacity overfull) ++ lastn 1 overfull.
Proof.
  apply (proj2 (proj2 addScan_oldest_first_eviction) overfull 1).
  - vm_compute. reflexivity.
  - unfold capacity. lia.
Defined.

End Store.

Lemma lower_char_small c :
  is_ascii_capital c = true ->
  JS.lower_char c = small_of c /\ JS.lower_char (small_of c) = small_of c.
Proof.
  destruct c as [b0 b1 b2 b3 b4 b5 b6 b7].
  destruct b0, b1, b2, b3, b4, b5, b6, b7; vm_compute; intros H;
    try discriminate H; split; reflexivity.
Qed.

Lemma same_letter_lower c d : same_letter c d -> JS.lower_char c = JS.lower_char d.
Proof.
  intros [-> | [[Hc ->] | [Hd ->]]].
  - reflexivity.
  - destruct (lower_char_small c Hc) as [H1 H2]. congruence.
  - destruct (lower_char_small d Hd) as [H1 H2]. congruence.
Qed.

Lemma eq_ignoring_case_lower a b :
  eq_ignoring_case a b -> JS.toLowerCase a = JS.toLowerCase b.
Proof.
  induction 1 as [|c d s t Hcd _ IH]; simpl.
  - reflexivity.
  - rewrite (same_letter_lower c d Hcd), IH. reflexivity.
Qed.

Lemma find_first {A} (p : A -> bool) (l : list A) :
  match JS.find p l with
  | Some r => exists older newer,
      l = (older ++ r :: newer)%list /\ p r = true
      /\ Forall (fun x => p x = false) older
  | None => Forall (fun x => p x = false) l
  end.
Proof.
  induction l as [|x l IH]; simpl.
  - constructor.
  - destruct (p x) eqn:E.
    + exists [], l. repeat split; [exact E | constructor].
    + destruct (JS.find p l) as [r|].
      * destruct IH as [older [newer [-> [Hr Hold]]]].
        exists (x :: older), newer. repeat split; [exact Hr|].
        constructor; assumption.
      * constructor; assumption.
Qed.

(** C7. [getScan] compares addresses without regard to letter case and
    returns the entry inserted earliest among those that match, or nothing
    when none matches; with A (score 80) inserted before B (score 40) for
    the same address, it returns A. *)
Theorem getScan_earliest_match :
  (forall scans address,
      match inMemoryDB.getScan scans address with
      | Some r => exists older newer,
          scans = (older ++ r :: newer)%list /\ names address r
          /\ Forall (fun x => ~ names address x) older
      | None => Forall (fun x => ~ names address x) scans
      end)
  /\ (forall scans address address',
         eq_ignoring_case address address' ->
         inMemoryDB.getScan scans address = inMemoryDB.getScan scans address')
  /\ (forall x address,
         eq_ignoring_case (Scan.contract_address x) address -> names address x)
  /\ inMemoryDB.getScan (add_all [entryA; entryB] [])
       "0xabc0000000000000000000000000000000000001" = Some entryA.
Proof.
  split; [|split; [|split]].
  - intros scans address. unfold inMemoryDB.getScan, names.
    set (p := fun s : Scan.entry =>
                (JS.toLowerCase (Scan.contract_address s) =? JS.toLowerCase address)%string).
    pose proof (find_first p scans) as H.
    assert (Hno : forall l, Forall (fun x => p x = false) l ->
                  Forall (fun x => JS.toLowerCase (Scan.contract_address x)
                                   <> JS.toLowerCase address) l).
    { intros l Hl. eapply Forall_impl; [|exact Hl].
      intros a Ha. unfold p in Ha. apply String.eqb_neq. exact Ha. }
    destruct (JS.find p scans) as [r|].
    + destruct H as [older [newer [-> [Hr Hold]]]].
      exists older, newer. repeat split.
      * apply String.eqb_eq. exact Hr.
      * apply Hno. exact Hold.
    + apply Hno. exact H.
  - intros scans address address' H. unfold inMemoryDB.getScan.
    rewrite (eq_ignoring_case_lower _ _ H). reflexivity.
  - intros x address H. unfold names. apply eq_ignoring_case_lower. exact H.
  - vm_compute. reflexivity.
Qed.

Lemma getScan_earliest_match_witness :
  inMemoryDB.getScan [entryA; entryB] "a" = inMemoryDB.getScan [entryA; entryB] "A".
Proof.
  apply (proj1 (proj2 getScan_earliest_match) [entryA; entryB] "a" "A").
  constructor; [|constructor].
  right. right. split; reflexivity.
Defined.

Lemma getRecent_positive scans limit :
  1 <= limit ->
  inMemoryDB.getRecent scans (Some limit) = firstn (Z.to_nat limit) (rev scans).
Proof.
  intros H. unfold inMemoryDB.getRecent, JS.reverse, JS.slice.
  destruct (Z.ltb_spec (- limit) 0) as [_|Hge]; [|lia].
  rewrite firstn_rev. f_equal. f_equal. lia.
Qed.

(** C9, as the code has it. For every store and every limit of at least 1,
    [getRecent(limit)] is the first [limit] entries of the store read from
    the newest to the oldest, so its length is min(limit, store size). *)
Theorem getRecent_newest_first :
  forall scans limit,
    1 <= limit ->
    inMemoryDB.getRecent scans (Some limit) = firstn (Z.to_nat limit) (rev scans)
    /\ Z.of_nat (List.length (inMemoryDB.getRecent scans (Some limit)))
       = Z.min limit (Z.of_nat (List.length scans)).
Proof.
  intros scans limit H. split.
  - apply getRecent_positive. exact H.
  - rewrite getRecent_positive by exact H.
    rewrite length_firstn, length_rev. lia.
Qed.

Lemma getRecent_newest_first_witness :
  inMemoryDB.getRecent [entryA; entryB] (Some 1) = [entryB]
  /\ Z.of_nat (List.length (inMemoryDB.getRecent [entryA; entryB] (Some 1))) = 1.
Proof.
  destruct (getRecent_newest_first [entryA; entryB] 1 ltac:(lia)) as [H1 H2].
  split; [rewrite H1 | rewrite H2]; reflexivity.
Defined.

(** C9 as the specification states it fails. With limit 0 the whole store comes back, and with
    limit -1 all of it but the oldest entry: more than min(limit, store
    size) entries in both cases. *)
Lemma getRecent_nonpositive_limit_exceeds :
  inMemoryDB.getRecent [entryA; entryB] (Some 0) = [entryB; entryA]
  /\ ~ (Z.of_nat (List.length (inMemoryDB.getRecent [entryA; entryB] (Some 0)))
        <= Z.min 0 (Z.of_nat (List.length [entryA; entryB])))
  /\ inMemoryDB.getRecent [entryA; entryB] (Some (-1)) = [entryB]
  /\ ~ (Z.of_nat (List.length (inMemoryDB.getRecent [entryA; entryB] (Some (-1))))
        <= Z.min (-1) (Z.of_nat (List.length [entryA; entryB]))).
Proof.
  split; [reflexivity|]. split; [|split; [reflexivity|]];
    vm_compute; intros H; apply H; reflexivity.
Qed.

(* ================================================================== *)
(** ** The on-demand handler *)
(* ================================================================== *)

Lemma scanWithGoPlus_no_data w address chainId response s :
  axios_get w chainId address = Resolves response ->
  response (JS.toLowerCase address) = None ->
  fst (scanWithGoPlus w address chainId s) = Normal None.
Proof.
  intros Hget Hrep.
  unfold scanWithGoPlus, try_catch, bind, await, call, emit, modify, settle.
  rewrite Hget. cbn. rewrite Hrep. reflexivity.
Qed.

Lemma scanWithGoPlus_unreachable w address chainId e s :
  axios_get w chainId address = Rejects e ->
  fst (scanWithGoPlus w address chainId s) = Normal None.
Proof.
  intros Hget.
  unfold scanWithGoPlus, try_catch, bind, await, call, emit, modify, settle.
  rewrite Hget. reflexivity.
Qed.

(** [scanWithGoPlus] itself submits nothing to the contract. *)
Lemma scanWithGoPlus_trace w address chainId s :
  (forall s, others w s = s) ->
  snd (scanWithGoPlus w address chainId s)
  = snd (emit (EvAxiosGet chainId address) s).
Proof.
  intros Hq.
  unfold scanWithGoPlus, try_catch, bind, await, call, emit, modify, settle.
  destruct (axios_get w chainId address) as [response|e]; cbn; rewrite Hq.
  - destruct (response (JS.toLowerCase address)); reflexivity.
  - reflexivity.
Qed.

(** When the scorer returns [null], the handler stops at the assignment to
    its [const] binding: no transaction is submitted and nothing is stored. *)
Lemma onAuditRequested_null_scan w requestId target requester fee s :
  (forall s, others w s = s) ->
  fst (scanWithGoPlus w target default_chainId s) = Normal None ->
  let s' := snd (onAuditRequested w requestId target requester fee s) in
  fst (onAuditRequested w requestId target requester fee s) = Normal tt
  /\ trace s' = (trace s ++ [EvAxiosGet default_chainId target])%list
  /\ scans s' = scans s.
Proof.
  intros Hq Hnull.
  pose proof (scanWithGoPlus_trace w target default_chainId s Hq) as Ht.
  unfold onAuditRequested, try_catch, bind, await, assign_const, throw.
  destruct (scanWithGoPlus w target default_chainId s) as [r s1].
  cbn in Hnull, Ht. subst r s1. cbn. rewrite Hq. cbn. auto.
Qed.

(** C1, on the code. With the chain up and the risk service either silent
    on the target or unreachable, the handler returns after the scorer's
    call alone: no [fulfillAudit] is submitted, where the specification
    has one carrying score 50. *)
Theorem onAuditRequested_unavailable_submits_nothing :
  let no_data := with_no_report (chain_up 1) in
  let down := chain_up 1 in
  trace (snd (onAuditRequested no_data 7 sample_address sample_address 1 initial))
    = [EvAxiosGet default_chainId sample_address]
  /\ fulfill_count
       (trace (snd (onAuditRequested no_data 7 sample_address sample_address 1 initial))) = 0%nat
  /\ trace (snd (onAuditRequested down 7 sample_address sample_address 1 initial))
    = [EvAxiosGet default_chainId sample_address]
  /\ fst (scanWithGoPlus no_data sample_address default_chainId initial) = Normal None
  /\ fst (scanWithGoPlus down sample_address default_chainId initial) = Normal None.
Proof.
  cbv zeta. repeat split; vm_compute; reflexivity.
Qed.

(** The entry the handler stores for a fulfilled request. *)
Lemma onAuditRequested_report w requestId target requester fee response report tx receipt s :
  (forall s, others w s = s) ->
  axios_get w default_chainId target = Resolves response ->
  response (JS.toLowerCase target) = Some report ->
  contract_fulfillAudit w requestId (score (score_report report))
    (isHoneypot (score_report report)) (isMintable (score_report report))
    (ownerCanWithdraw (score_report report)) = Resolves tx ->
  tx_wait w (hash tx) = Resolves receipt ->
  let r := score_report report in
  let s' := snd (onAuditRequested w requestId target requester fee s) in
  trace s' = (trace s ++ [EvAxiosGet default_chainId target;
                          EvFulfillAudit requestId (score r) (isHoneypot r)
                            (isMintable r) (ownerCanWithdraw r) 300000;
                          EvTxWait (hash tx)])%list
  /\ scans s' =
       if status receipt =? 1
       then inMemoryDB.addScan (scans s)
              {| Scan.contract_address := target;
                 Scan.score := score r;
                 Scan.is_honeypot := isHoneypot r;
                 Scan.is_mintable := isMintable r;
                 Scan.owner_can_withdraw := ownerCanWithdraw r;
                 Scan.block_number := None;
                 Scan.deployer := None;
                 Scan.has_sbt := true;
                 Scan.scanned_at := now w |}
       else scans s.
Proof.
  intros Hq Hget Hrep Hsend Hwait r s'. subst r s'.
  unfold onAuditRequested, scanWithGoPlus, try_catch, bind, await, call, emit,
    modify, settle, addScan, set_scans, get, ret.
  rewrite Hget. cbn -[score_report]. rewrite !Hq, Hrep. cbn -[score_report].
  rewrite !Hq, Hsend. cbn -[score_report]. rewrite !Hq, Hwait. cbn -[score_report].
  rewrite !Hq.
  destruct (status receipt =? 1); cbn -[score_report inMemoryDB.addScan];
    rewrite <- !app_assoc; split; reflexivity.
Qed.

Ltac run_handler :=
  unfold onAuditRequested, scanWithGoPlus, try_catch, bind, await, call, emit,
    modify, settle, addScan, set_scans, get, ret, throw, assign_const.

(** C8. When the scorer returned a result, the transaction was submitted
    and mined, and its receipt's status is not 1, the handler leaves the
    store as it was and has submitted exactly one transaction, with no
    second attempt.  Whatever happens, the store changes only by the
    append of one entry with [has_sbt = true], and only after a receipt
    with status 1. *)
Theorem onAuditRequested_reverted_stores_nothing :
  (forall w requestId target requester fee response report tx receipt s,
      (forall s, others w s = s) ->
      axios_get w default_chainId target = Resolves response ->
      response (JS.toLowerCase target) = Some report ->
      contract_fulfillAudit w requestId (score (score_report report))
        (isHoneypot (score_report report)) (isMintable (score_report report))
        (ownerCanWithdraw (score_report report)) = Resolves tx ->
      tx_wait w (hash tx) = Resolves receipt ->
      status receipt <> 1 ->
      let s' := snd (onAuditRequested w requestId target requester fee s) in
      scans s' = scans s
      /\ fulfill_count (trace s') = (fulfill_count (trace s) + 1)%nat
      /\ exists r, trace s' =
           (trace s ++ [EvAxiosGet default_chainId target;
                        EvFulfillAudit requestId (score r) (isHoneypot r)
                          (isMintable r) (ownerCanWithdraw r) 300000;
                        EvTxWait (hash tx)])%list)
  /\ (forall w requestId target requester fee s,
         (forall s, others w s = s) ->
         let s' := snd (onAuditRequested w requestId target requester fee s) in
         scans s' = scans s
         \/ exists r tx receipt entry,
              fst (scanWithGoPlus w target default_chainId s) = Normal (Some r)
              /\ contract_fulfillAudit w requestId (score r) (isHoneypot r)
                   (isMintable r) (ownerCanWithdraw r) = Resolves tx
              /\ tx_wait w (hash tx) = Resolves receipt
              /\ status receipt = 1
              /\ Scan.has_sbt entry = true
              /\ Scan.contract_address entry = target
              /\ Scan.score entry = score r
              /\ scans s' = inMemoryDB.addScan (scans s) entry).
Proof.
  split.
  - intros w requestId target requester fee response report tx receipt s
      Hq Hget Hrep Hsend Hwait Hst s'.
    destruct (onAuditRequested_report w requestId target requester fee
                response report tx receipt s Hq Hget Hrep Hsend Hwait) as [Ht Hs].
    fold s' in Ht, Hs.
    apply Z.eqb_neq in Hst. rewrite Hst in Hs.
    split; [exact Hs|]. split.
    + rewrite Ht. unfold fulfill_count. rewrite filter_app, length_app. reflexivity.
    + exists (score_report report). exact Ht.
  - intros w requestId target requester fee s Hq s'.
    destruct (axios_get w default_chainId target) as [response|e] eqn:Hget.
    2:{ left. apply (onAuditRequested_null_scan w requestId target requester fee s Hq).
        eapply scanWithGoPlus_unreachable. exact Hget. }
    destruct (response (JS.toLowerCase target)) as [report|] eqn:Hrep.
    2:{ left. apply (onAuditRequested_null_scan w requestId target requester fee s Hq).
        eapply scanWithGoPlus_no_data; eassumption. }
    destruct (contract_fulfillAudit w requestId (score (score_report report))
                (isHoneypot (score_report report)) (isMintable (score_report report))
                (ownerCanWithdraw (score_report report))) as [tx|e] eqn:Hsend.
    2:{ left. subst s'. run_handler.
        rewrite Hget. cbn -[score_report]. rewrite !Hq, Hrep. cbn -[score_report].
        rewrite !Hq, Hsend. cbn. rewrite !Hq. reflexivity. }
    destruct (tx_wait w (hash tx)) as [receipt|e] eqn:Hwait.
    2:{ left. subst s'. run_handler.
        rewrite Hget. cbn -[score_report]. rewrite !Hq, Hrep. cbn -[score_report].
        rewrite !Hq, Hsend. cbn -[score_report]. rewrite !Hq, Hwait. cbn.
        rewrite !Hq. reflexivity. }
    destruct (onAuditRequested_report w requestId target requester fee
                response report tx receipt s Hq Hget Hrep Hsend Hwait) as [_ Hs].
    fold s' in Hs.
    destruct (Z.eqb_spec (status receipt) 1) as [Hone|Hnot].
    + right. eexists (score_report report), tx, receipt, _.
      split; [eapply scanWithGoPlus_report; eassumption|].
      split; [exact Hsend|]. split; [exact Hwait|]. split; [exact Hone|].
      split; [|split; [|split; [|exact Hs]]]; reflexivity.
    + left. exact Hs.
Qed.

Lemma onAuditRequested_reverted_stores_nothing_witness :
  let w := with_report sample_address scenario_report (chain_up 0) in
  let s' := snd (onAuditRequested w 7 sample_address sample_address 1 initial) in
  scans s' = []
  /\ fulfill_count (trace s') = 1%nat.
Proof.
  intros w s'.
  destruct (proj1 onAuditRequested_reverted_stores_nothing w 7 sample_address
              sample_address 1
              (fun key => if (key =? JS.toLowerCase sample_address)%string
                          then Some scenario_report else None)
              scenario_report {| hash := "0xfeed" |}
              {| status := 0; contractAddress := None |} initial
              (fun s => eq_refl) eq_refl eq_refl eq_refl eq_refl
              ltac:(discriminate)) as [Hs [Hc _]].
  split; [exact Hs | exact Hc].
Defined.

(* ================================================================== *)
(** ** The block sweep *)
(* ================================================================== *)


Lemma lockstep_ret {A} P (a : A) : lockstep P P (ret a) (ret a).
Proof. intros s Hs. split; [reflexivity | exact Hs]. Qed.

Lemma lockstep_bind {A B} P Q (m m' : M A) (k k' : A -> M B) :
  lockstep P Q m m' -> (forall a, lockstep Q Q (k a) (k' a)) ->
  lockstep P Q (bind m k) (bind m' k').
Proof.
  intros Hm Hk s Hs. unfold bind.
  destruct (Hm s Hs) as [E I]. rewrite <- E.
  destruct (m s) as [[a|e] s1]; cbn [snd] in I.
  - apply Hk. exact I.
  - split; [reflexivity | exact I].
Qed.

(** When the first part cannot throw, the second may move the invariant on. *)
Lemma lockstep_bind_normal {A B} P Q R (m m' : M A) (k k' : A -> M B) :
  lockstep P Q m m' -> (forall s, exists a, fst (m s) = Normal a) ->
  (forall a, lockstep Q R (k a) (k' a)) ->
  lockstep P R (bind m k) (bind m' k').
Proof.
  intros Hm Hn Hk s Hs. unfold bind.
  destruct (Hm s Hs) as [E I]. rewrite <- E.
  destruct (Hn s) as [a Ha].
  destruct (m s) as [r s1]; cbn [fst snd] in I, Ha. subst r.
  apply Hk. exact I.
Qed.

Lemma lockstep_try_catch {A} P Q (m m' : M A) (h h' : string -> M A) :
  lockstep P Q m m' -> (forall e, lockstep Q Q (h e) (h' e)) ->
  lockstep P Q (try_catch m h) (try_catch m' h').
Proof.
  intros Hm Hh s Hs. unfold try_catch.
  destruct (Hm s Hs) as [E I]. rewrite <- E.
  destruct (m s) as [[a|e] s1]; cbn [snd] in I.
  - split; [reflexivity | exact I].
  - apply Hh. exact I.
Qed.

(** A suspension in [w] against one in [w] with the other callbacks
    replaced by [f]: the same, when those of [w] act as [f] where [Q] holds
    and keep it. *)
Lemma lockstep_await {A} w f P Q (m m' : M A) :
  (forall s, Q s -> others w s = f s /\ Q (others w s)) ->
  lockstep P Q m m' -> lockstep P Q (await w m) (await (with_others f w) m').
Proof.
  intros HO Hm s Hs. unfold await.
  destruct (Hm s Hs) as [E I]. rewrite <- E.
  destruct (m s) as [r s1]; cbn [snd others with_others] in *.
  destruct (HO s1 I) as [E2 I2].
  rewrite <- E2. split; [reflexivity | exact I2].
Qed.

Lemma lockstep_call {A} P Q e (o : outcome A) :
  (forall s, P s -> Q (snd (emit e s))) -> lockstep P Q (call e o) (call e o).
Proof.
  intros HE s Hs. split; [reflexivity|].
  pose proof (HE s Hs) as I.
  unfold call, bind. destruct (emit e s) as [[[]|x] s1] eqn:E; cbn [snd] in *.
  - destruct o; exact I.
  - exact I.
Qed.

Lemma lockstep_for_of {A} P (xs : list A) (body body' : A -> M unit) :
  (forall x, lockstep P P (body x) (body' x)) ->
  lockstep P P (for_of xs body) (for_of xs body').
Proof.
  intros Hb. induction xs as [|x xs IH]; cbn [for_of].
  - apply lockstep_ret.
  - apply lockstep_bind; [apply Hb | intros _; exact IH].
Qed.

(** The code that fetches no block keeps an invariant [Inv] that the other
    callbacks, the store and the calls other than a block fetch keep. *)
Section Lockstep.

Variable w : World.
Variable f : State -> State.
Variable Inv : State -> Prop.

Hypothesis Inv_others : forall s, Inv s -> others w s = f s /\ Inv (others w s).
Hypothesis Inv_emit : forall e s, is_getBlock e = false -> Inv s -> Inv (snd (emit e s)).
Hypothesis Inv_scans : forall l s, Inv s -> Inv (snd (set_scans l s)).

Lemma lockstep_addScan data : lockstep Inv Inv (addScan data) (addScan data).
Proof.
  intros s Hs. split; [reflexivity|]. unfold addScan, bind, get.
  apply Inv_scans. exact Hs.
Qed.

Lemma lockstep_property_of {A B} (o : option A) (field : A -> B) :
  lockstep Inv Inv (property_of o field) (property_of o field).
Proof. intros s Hs. split; [reflexivity|]. destruct o; exact Hs. Qed.

Lemma lockstep_scanWithGoPlus address chainId :
  lockstep Inv Inv (scanWithGoPlus w address chainId)
                   (scanWithGoPlus (with_others f w) address chainId).
Proof.
  unfold scanWithGoPlus. cbn [axios_get with_others].
  apply lockstep_try_catch; [|intros e; apply lockstep_ret].
  apply lockstep_bind.
  - apply lockstep_await; [exact Inv_others|].
    apply lockstep_call. intros s. apply Inv_emit. reflexivity.
  - intros response. destruct (response (JS.toLowerCase address)); apply lockstep_ret.
Qed.

Lemma lockstep_scanTransaction blockNumber txHash :
  lockstep Inv Inv (scanTransaction w blockNumber txHash)
                   (scanTransaction (with_others f w) blockNumber txHash).
Proof.
  unfold scanTransaction.
  cbn [provider_getTransaction provider_getTransactionReceipt now with_others].
  apply lockstep_bind.
  { apply lockstep_await; [exact Inv_others|].
    apply lockstep_call. intros s. apply Inv_emit. reflexivity. }
  intros tx.
  apply lockstep_bind.
  { apply lockstep_await; [exact Inv_others|].
    apply lockstep_call. intros s. apply Inv_emit. reflexivity. }
  intros [receipt|]; [|apply lockstep_ret].
  destruct (truthy (contractAddress receipt)); [|apply lockstep_ret].
  apply lockstep_bind; [apply lockstep_property_of|].
  intros deployer.
  apply lockstep_bind.
  { apply lockstep_await; [exact Inv_others | apply lockstep_scanWithGoPlus]. }
  intros [scanResult|]; [apply lockstep_addScan | apply lockstep_ret].
Qed.

End Lockstep.

(** [scanBlock] catches whatever is thrown inside it. *)
Lemma scanBlock_normal w n s : fst (scanBlock w n s) = Normal tt.
Proof.
  unfold scanBlock, try_catch.
  match goal with |- context [match ?m s with _ => _ end] =>
    destruct (m s) as [[[]|e] s'] end; reflexivity.
Qed.

Lemma await_fst {A} w (m : M A) s : fst (await w m s) = fst (m s).
Proof. unfold await. destruct (m s). reflexivity. Qed.

Lemma for_upto_normal w fuel hi : forall i s,
  fst (for_upto w fuel i hi (scanBlock w) s) = Normal tt.
Proof.
  induction fuel as [|fuel IH]; intros i s; cbn [for_upto].
  - reflexivity.
  - destruct (i <=? hi); [|reflexivity].
    unfold bind.
    pose proof (await_fst w (scanBlock w i) s) as H.
    rewrite scanBlock_normal in H.
    destruct (await w (scanBlock w i) s) as [r s1]. cbn [fst] in H. subst r.
    apply IH.
Qed.

Lemma block_range_step i hi :
  i <= hi ->
  block_range (Z.to_nat (hi - i + 1)) i
  = i :: block_range (Z.to_nat (hi - (i + 1) + 1)) (i + 1).
Proof.
  intros H. replace (Z.to_nat (hi - i + 1)) with (S (Z.to_nat (hi - (i + 1) + 1))) by lia.
  reflexivity.
Qed.

(** The same for the code that fetches blocks: the invariant is indexed by
    the list of blocks fetched so far, which a fetch extends. *)
Section SweepLockstep.

Variable w : World.
Variable f : State -> State.
Variable InvT : list Z -> State -> Prop.

Hypothesis InvT_others :
  forall T s, InvT T s -> others w s = f s /\ InvT T (others w s).
Hypothesis InvT_emit :
  forall T e s, is_getBlock e = false -> InvT T s -> InvT T (snd (emit e s)).
Hypothesis InvT_scans : forall T l s, InvT T s -> InvT T (snd (set_scans l s)).
Hypothesis InvT_fetch :
  forall T n s, InvT T s -> InvT (T ++ [n])%list (snd (emit (EvGetBlock n) s)).

Lemma lockstep_scanBlock T n :
  lockstep (InvT T) (InvT (T ++ [n])%list)
    (scanBlock w n) (scanBlock (with_others f w) n).
Proof.
  unfold scanBlock. cbn [provider_getBlock with_others].
  apply lockstep_try_catch; [|intros e; apply lockstep_ret].
  apply lockstep_bind.
  - apply lockstep_await; [apply InvT_others|].
    apply lockstep_call. apply InvT_fetch.
  - intros [block|]; [|apply lockstep_ret].
    apply lockstep_for_of. intros txHash.
    apply lockstep_scanTransaction;
      [apply InvT_others | apply InvT_emit | apply InvT_scans].
Qed.

(** With fuel for every block from [i] to [hi], the loop fetches exactly
    those blocks, in ascending order. *)
Lemma lockstep_for_upto fuel hi : forall i T,
  hi - i + 1 <= Z.of_nat fuel ->
  lockstep (InvT T) (InvT (T ++ block_range (Z.to_nat (hi - i + 1)) i)%list)
    (for_upto w fuel i hi (scanBlock w))
    (for_upto (with_others f w) fuel i hi (scanBlock (with_others f w))).
Proof.
  induction fuel as [|fuel IH]; intros i T Hfuel; cbn [for_upto].
  - replace (Z.to_nat (hi - i + 1)) with O by lia.
    cbn [block_range]. rewrite app_nil_r. apply lockstep_ret.
  - destruct (Z.leb_spec i hi) as [Hle|Hgt].
    + rewrite (block_range_step i hi Hle).
      replace (T ++ i :: block_range (Z.to_nat (hi - (i + 1) + 1)) (i + 1))%list
        with ((T ++ [i]) ++ block_range (Z.to_nat (hi - (i + 1) + 1)) (i + 1))%list
        by (rewrite <- app_assoc; reflexivity).
      apply lockstep_bind_normal with (Q := InvT (T ++ [i])%list).
      * apply lockstep_await; [apply InvT_others | apply lockstep_scanBlock].
      * intros s. exists tt. rewrite await_fst. apply scanBlock_normal.
      * intros _. apply IH. lia.
    + replace (Z.to_nat (hi - i + 1)) with O by lia.
      cbn [block_range]. rewrite app_nil_r. apply lockstep_ret.
Qed.

End SweepLockstep.


Lemma scanned_blocks_emit e s :
  scanned_blocks (trace (snd (emit e s)))
  = (scanned_blocks (trace s) ++ match e with EvGetBlock n => [n] | _ => [] end)%list.
Proof.
  unfold emit, modify, scanned_blocks. cbn [snd trace].
  rewrite flat_map_app. cbn [flat_map]. rewrite app_nil_r. reflexivity.
Qed.

Lemma sweeping_others w L T s :
  sweep_private w -> sweeping L T s ->
  others w s = others w s /\ sweeping L T (others w s).
Proof.
  intros Hp [Hf [Hl Ht]]. split; [reflexivity|].
  destruct (Hp s Hf) as [Hf' [Hl' Ht']].
  repeat split; congruence.
Qed.

Lemma sweeping_emit L T e s :
  is_getBlock e = false -> sweeping L T s -> sweeping L T (snd (emit e s)).
Proof.
  intros He [Hf [Hl Ht]]. repeat split; [exact Hf | exact Hl |].
  rewrite scanned_blocks_emit, Ht. destruct e; try discriminate He; apply app_nil_r.
Qed.

Lemma sweeping_scans L T l s : sweeping L T s -> sweeping L T (snd (set_scans l s)).
Proof. intros H. exact H. Qed.

Lemma sweeping_fetch L T n s :
  sweeping L T s -> sweeping L (T ++ [n])%list (snd (emit (EvGetBlock n) s)).
Proof.
  intros [Hf [Hl Ht]]. repeat split; [exact Hf | exact Hl |].
  rewrite scanned_blocks_emit, Ht. reflexivity.
Qed.

Lemma bind_normal {A B} (m : M A) (k : A -> M B) s a s1 :
  m s = (Normal a, s1) -> bind m k s = k a s1.
Proof. intros E. unfold bind. rewrite E. reflexivity. Qed.

Lemma bind_throw {A B} (m : M A) (k : A -> M B) s e s1 :
  m s = (Throw e, s1) -> bind m k s = (Throw e, s1).
Proof. intros E. unfold bind. rewrite E. reflexivity. Qed.

(** The range step of a tick: nothing when the head is not above the
    watermark; otherwise the blocks above the watermark up to the head are
    fetched in ascending order and the watermark moves to the head. *)
Lemma scan_range_run w H L T s :
  sweep_private w -> sweeping L T s ->
  exists s',
    scan_range w H s = (Normal tt, s')
    /\ sweeping (if H >? L then H else L)
         (T ++ if H >? L then block_range (Z.to_nat (H - L)) (L + 1) else [])%list s'.
Proof.
  intros Hp Hs. pose proof Hs as [Hf [Hl Ht]].
  unfold scan_range. rewrite (bind_normal get _ s s s eq_refl). rewrite Hl.
  destruct (Z.gtb_spec H L) as [Hgt|Hle].
  - pose proof (for_upto_normal w (Z.to_nat (H - L)) H (L + 1) s) as Hn.
    destruct (lockstep_for_upto w (others w) (sweeping L)
                (fun T s => sweeping_others w L T s Hp)
                (sweeping_emit L) (sweeping_scans L) (sweeping_fetch L)
                (Z.to_nat (H - L)) H (L + 1) T ltac:(lia) s Hs)
      as [_ [Hf' [Hl' Ht']]].
    replace (H - (L + 1) + 1) with (H - L) in Ht' by lia.
    destruct (for_upto w (Z.to_nat (H - L)) (L + 1) H (scanBlock w) s) as [r1 s1] eqn:E.
    cbn [fst snd] in *. subst r1.
    rewrite (bind_normal _ _ s tt s1 E).
    eexists. split; [reflexivity|]. repeat split; cbn; auto.
  - exists s. split; [reflexivity|]. rewrite app_nil_r. exact Hs.
Qed.

Lemma init_watermark_run H L T s :
  sweeping L T s ->
  exists s',
    init_watermark H s = (Normal tt, s') /\ sweeping (start_of L H) T s'.
Proof.
  intros [Hf [Hl Ht]].
  unfold init_watermark, start_of. rewrite (bind_normal get _ s s s eq_refl), Hl.
  destruct (L =? 0); eexists; (split; [reflexivity|]); repeat split; cbn; auto.
Qed.

(** The [try] block when the head is read. *)
Lemma scanNewBlocks_try_resolves w H L T s :
  sweep_private w -> provider_getBlockNumber w = Resolves H -> sweeping L T s ->
  exists s',
    scanNewBlocks_try w s = (Normal tt, s')
    /\ sweeping (if H >? start_of L H then H else start_of L H)
         (T ++ if H >? start_of L H
               then block_range (Z.to_nat (H - start_of L H)) (start_of L H + 1)
               else [])%list s'.
Proof.
  intros Hp Hhead Hs.
  pose proof (sweeping_emit _ _ EvGetBlockNumber s eq_refl Hs) as H1.
  destruct (sweeping_others w _ _ _ Hp H1) as [_ H2].
  destruct (init_watermark_run H _ _ _ H2) as [s3 [E3 H3]].
  destruct (scan_range_run w H _ _ s3 Hp H3) as [s4 [E4 H4]].
  exists s4. split; [|exact H4].
  unfold scanNewBlocks_try.
  erewrite bind_normal.
  2:{ unfold await, call. erewrite bind_normal by reflexivity.
      rewrite Hhead. reflexivity. }
  erewrite bind_normal by exact E3. exact E4.
Qed.

(** The [try] block when reading the head fails. *)
Lemma scanNewBlocks_try_rejects w e L T s :
  sweep_private w -> provider_getBlockNumber w = Rejects e -> sweeping L T s ->
  exists s', scanNewBlocks_try w s = (Throw e, s') /\ sweeping L T s'.
Proof.
  intros Hp Hhead Hs.
  pose proof (sweeping_emit _ _ EvGetBlockNumber s eq_refl Hs) as H1.
  destruct (sweeping_others w _ _ _ Hp H1) as [_ H2].
  eexists. split; [|exact H2].
  unfold scanNewBlocks_try.
  erewrite bind_throw; [reflexivity|].
  unfold await, call. erewrite bind_normal by reflexivity.
  rewrite Hhead. reflexivity.
Qed.

(** [scanNewBlocks] past its guard. *)
Lemma scanNewBlocks_idle w s :
  isScanning s = false ->
  scanNewBlocks w s
  = finally (try_catch (scanNewBlocks_try w) (fun error => ret tt))
      (set_isScanning false) (snd (set_isScanning true s)).
Proof.
  intros Hf. unfold scanNewBlocks.
  rewrite (bind_normal get _ s s s eq_refl), Hf.
  erewrite bind_normal by reflexivity. reflexivity.
Qed.

(** A tick that finds the flag down and reads head [H]. *)
Lemma tick_resolves w s H :
  sweep_private w -> isScanning s = false ->
  provider_getBlockNumber w = Resolves H ->
  let L := start_of (lastProcessedBlock s) H in
  isScanning (tick w s) = false
  /\ lastProcessedBlock (tick w s) = (if H >? L then H else L)
  /\ scanned_blocks (trace (tick w s))
     = (scanned_blocks (trace s)
        ++ if H >? L then block_range (Z.to_nat (H - L)) (L + 1) else [])%list.
Proof.
  intros Hp Hf Hhead L.
  assert (H0 : sweeping (lastProcessedBlock s) (scanned_blocks (trace s))
                 (snd (set_isScanning true s))) by (repeat split).
  destruct (scanNewBlocks_try_resolves w H _ _ _ Hp Hhead H0) as [s' [E [_ [Hl Ht]]]].
  unfold tick. rewrite (scanNewBlocks_idle w s Hf).
  unfold finally, try_catch. rewrite E. cbn. repeat split; assumption.
Qed.

(** A tick that finds the flag down and fails to read the head. *)
Lemma tick_rejects w s e :
  sweep_private w -> isScanning s = false ->
  provider_getBlockNumber w = Rejects e ->
  isScanning (tick w s) = false
  /\ lastProcessedBlock (tick w s) = lastProcessedBlock s
  /\ scanned_blocks (trace (tick w s)) = scanned_blocks (trace s).
Proof.
  intros Hp Hf Hhead.
  assert (H0 : sweeping (lastProcessedBlock s) (scanned_blocks (trace s))
                 (snd (set_isScanning true s))) by (repeat split).
  destruct (scanNewBlocks_try_rejects w e _ _ _ Hp Hhead H0) as [s' [E [_ [Hl Ht]]]].
  unfold tick. rewrite (scanNewBlocks_idle w s Hf).
  unfold finally, try_catch. rewrite E. cbn. repeat split; assumption.
Qed.

(** What a tick does to the flag and the watermark, whatever the head read
    gives. *)
Lemma tick_step w s :
  sweep_private w -> head_nonneg w ->
  isScanning s = false -> 0 <= lastProcessedBlock s ->
  isScanning (tick w s) = false
  /\ 0 <= lastProcessedBlock (tick w s)
  /\ lastProcessedBlock s <= lastProcessedBlock (tick w s)
  /\ (lastProcessedBlock (tick w s) = lastProcessedBlock s
      \/ provider_getBlockNumber w = Resolves (lastProcessedBlock (tick w s))).
Proof.
  intros Hp Hn Hf H0.
  destruct (provider_getBlockNumber w) as [H|e] eqn:Hhead.
  - destruct (tick_resolves w s H Hp Hf Hhead) as [Hf' [Hl' _]].
    specialize (Hn H Hhead).
    rewrite Hl'. unfold start_of.
    destruct (Z.eqb_spec (lastProcessedBlock s) 0) as [Hz|Hz].
    + destruct (Z.gtb_spec H (H - 1)); [|lia].
      repeat split; try exact Hf'; try lia; auto.
    + destruct (Z.gtb_spec H (lastProcessedBlock s)).
      * repeat split; try exact Hf'; try lia; auto.
      * repeat split; try exact Hf'; try lia; auto.
  - destruct (tick_rejects w s e Hp Hf Hhead) as [Hf' [Hl' _]].
    rewrite Hl'. repeat split; try exact Hf'; try lia; auto.
Qed.

Lemma run_ticks_snoc ws w s : run_ticks (ws ++ [w]) s = tick w (run_ticks ws s).
Proof. unfold run_ticks. rewrite fold_left_app. reflexivity. Qed.

Lemma run_ticks_invariant ws s :
  Forall sweep_private ws -> Forall head_nonneg ws ->
  isScanning s = false -> 0 <= lastProcessedBlock s ->
  isScanning (run_ticks ws s) = false
  /\ 0 <= lastProcessedBlock (run_ticks ws s)
  /\ lastProcessedBlock s <= lastProcessedBlock (run_ticks ws s)
  /\ (lastProcessedBlock (run_ticks ws s) = lastProcessedBlock s
      \/ In (lastProcessedBlock (run_ticks ws s)) (heads ws)).
Proof.
  induction ws as [|w ws IH] using rev_ind; intros Hp Hn Hf H0.
  - cbn. repeat split; try assumption; try lia; auto.
  - apply Forall_app in Hp as [Hp Hpw]. apply Forall_app in Hn as [Hn Hnw].
    inversion Hpw as [|? ? Hpw' _]; subst. inversion Hnw as [|? ? Hnw' _]; subst.
    destruct (IH Hp Hn Hf H0) as [If [I0 [Ile Iin]]].
    rewrite run_ticks_snoc.
    destruct (tick_step w (run_ticks ws s) Hpw' Hnw' If I0) as [Tf [T0 [Tle Tin]]].
    repeat split; try assumption; try lia.
    unfold heads. rewrite flat_map_app. fold (heads ws).
    destruct Tin as [Te|Te].
    + rewrite Te. destruct Iin as [Ie|Ii]; [left; exact Ie | right].
      apply in_or_app. left. exact Ii.
    + right. apply in_or_app. right. cbn. rewrite Te. cbn. left. reflexivity.
Qed.

(** C4. Over any sequence of ticks, whatever heights are read (none
    negative) and whether or not the reads succeed, the watermark never
    goes down.  A tick that finds the watermark at 0 and reads head [H]
    first sets it to [H - 1], fetches block [H] and no other, and leaves
    the watermark at [H].  When the heights read form a progression, every
    tick whose read succeeds ends with the watermark at the height it read. *)
Theorem watermark_monotone_and_tracks_head :
  (forall ws1 ws2 s,
      Forall sweep_private (ws1 ++ ws2) -> Forall head_nonneg (ws1 ++ ws2) ->
      isScanning s = false -> 0 <= lastProcessedBlock s ->
      lastProcessedBlock (run_ticks ws1 s)
        <= lastProcessedBlock (run_ticks (ws1 ++ ws2) s))
  /\ (forall w s H,
         sweep_private w -> isScanning s = false -> lastProcessedBlock s = 0 ->
         provider_getBlockNumber w = Resolves H ->
         lastProcessedBlock (snd (init_watermark H s)) = H - 1
         /\ scanned_blocks (trace (tick w s)) = (scanned_blocks (trace s) ++ [H])%list
         /\ lastProcessedBlock (tick w s) = H)
  /\ (forall ws w H,
         Forall sweep_private (ws ++ [w]) -> Forall head_nonneg (ws ++ [w]) ->
         nondecreasing (heads (ws ++ [w])) ->
         provider_getBlockNumber w = Resolves H ->
         lastProcessedBlock (run_ticks (ws ++ [w]) initial) = H).
Proof.
  split; [|split].
  - intros ws1 ws2 s Hp Hn Hf H0.
    apply Forall_app in Hp as [Hp1 Hp2]. apply Forall_app in Hn as [Hn1 Hn2].
    destruct (run_ticks_invariant ws1 s Hp1 Hn1 Hf H0) as [If [I0 _]].
    unfold run_ticks at 2. rewrite fold_left_app. fold (run_ticks ws1 s).
    fold (run_ticks ws2 (run_ticks ws1 s)).
    destruct (run_ticks_invariant ws2 (run_ticks ws1 s) Hp2 Hn2 If I0) as [_ [_ [Hle _]]].
    exact Hle.
  - intros w s H Hp Hf Hz Hhead.
    destruct (tick_resolves w s H Hp Hf Hhead) as [_ [Hl Ht]].
    unfold start_of in Hl, Ht. rewrite Hz in Hl, Ht. cbn [Z.eqb] in Hl, Ht.
    assert (Hgt : (H >? H - 1) = true) by (apply Z.gtb_lt; lia).
    rewrite Hgt in Hl, Ht.
    replace (H - (H - 1)) with 1 in Ht by lia.
    replace (H - 1 + 1) with H in Ht by lia.
    split; [|split; [exact Ht | exact Hl]].
    unfold init_watermark. rewrite (bind_normal get _ s s s eq_refl), Hz. reflexivity.
  - intros ws w H Hp Hn Hmono Hhead.
    apply Forall_app in Hp as [Hp Hpw]. apply Forall_app in Hn as [Hn Hnw].
    inversion Hpw as [|? ? Hpw' _]; subst. inversion Hnw as [|? ? Hnw' _]; subst.
    destruct (run_ticks_invariant ws initial Hp Hn eq_refl ltac:(cbn; lia))
      as [If [I0 [_ Iin]]].
    rewrite run_ticks_snoc.
    destruct (tick_resolves w (run_ticks ws initial) H Hpw' If Hhead) as [_ [Hl _]].
    rewrite Hl. clear Hl.
    assert (Hle : lastProcessedBlock (run_ticks ws initial) <= H).
    { destruct Iin as [Ie|Ii].
      - rewrite Ie. cbn. apply Hnw'. exact Hhead.
      - apply In_nth_error in Ii as [i Hi].
        assert (Hlt : (i < List.length (heads ws))%nat)
          by (apply nth_error_Some; congruence).
        apply (Hmono i (List.length (heads ws))); [lia | |].
        + unfold heads. rewrite flat_map_app. fold (heads ws).
          rewrite nth_error_app1 by exact Hlt. exact Hi.
        + unfold heads. rewrite flat_map_app. fold (heads ws).
          rewrite nth_error_app2 by lia. rewrite Nat.sub_diag.
          cbn. rewrite Hhead. reflexivity. }
    unfold start_of.
    destruct (Z.eqb_spec (lastProcessedBlock (run_ticks ws initial)) 0) as [Hz|Hz].
    + destruct (Z.gtb_spec H (H - 1)); [reflexivity | lia].
    + destruct (Z.gtb_spec H (lastProcessedBlock (run_ticks ws initial))); lia.
Qed.

Lemma chain_up_private st : sweep_private (chain_up st).
Proof. intros s Hs. repeat split. exact Hs. Qed.

Lemma three_ticks_private : Forall sweep_private three_ticks.
Proof.
  unfold three_ticks.
  repeat (apply Forall_cons; [intros s Hs; repeat split; exact Hs|]).
  apply Forall_nil.
Qed.

Lemma three_ticks_nonneg : Forall head_nonneg three_ticks.
Proof.
  unfold three_ticks.
  repeat (apply Forall_cons;
          [intros H E; cbn in E; try discriminate E; injection E as <-; lia|]).
  apply Forall_nil.
Qed.

Lemma three_ticks_progress : nondecreasing (heads three_ticks).
Proof.
  intros i j a b Hij Hi Hj.
  destruct i as [|[|[|i]]]; destruct j as [|[|[|j]]]; cbn in Hi, Hj;
    try discriminate; try lia;
    injection Hi as <-; injection Hj as <-; lia.
Qed.

Lemma watermark_monotone_and_tracks_head_witness :
  (lastProcessedBlock (snd (init_watermark 103 initial)) = 102
   /\ scanned_blocks (trace (tick (chain_up 1) initial)) = [103]
   /\ lastProcessedBlock (tick (chain_up 1) initial) = 103)
  /\ lastProcessedBlock (run_ticks [with_head (Resolves 100) (chain_up 1)] initial)
      <= lastProcessedBlock (run_ticks three_ticks initial)
  /\ lastProcessedBlock (run_ticks three_ticks initial) = 103.
Proof.
  split; [|split].
  - exact (proj1 (proj2 watermark_monotone_and_tracks_head)
             (chain_up 1) initial 103 (chain_up_private 1) eq_refl eq_refl eq_refl).
  - exact (proj1 watermark_monotone_and_tracks_head
             [with_head (Resolves 100) (chain_up 1)]
             [with_head (Rejects "ETIMEDOUT") (chain_up 1); chain_up 1]
             initial three_ticks_private three_ticks_nonneg eq_refl
             ltac:(cbn; lia)).
  - exact (proj2 (proj2 watermark_monotone_and_tracks_head)
             [with_head (Resolves 100) (chain_up 1);
              with_head (Rejects "ETIMEDOUT") (chain_up 1)]
             (chain_up 1) 103
             three_ticks_private three_ticks_nonneg three_ticks_progress eq_refl).
Defined.

(** A tick that finds the flag up returns at once. *)
Lemma scanNewBlocks_busy w s :
  isScanning s = true -> scanNewBlocks w s = (Normal tt, s).
Proof.
  intros Hf. unfold scanNewBlocks.
  rewrite (bind_normal get _ s s s eq_refl), Hf. reflexivity.
Qed.

(** With the flag up, a world whose other callbacks are further calls of
    [scanNewBlocks] runs the [try] block as the world where nothing else
    runs. *)
Lemma scanNewBlocks_try_reentrant w s :
  (forall s, isScanning s = true -> others w s = s) ->
  isScanning s = true ->
  scanNewBlocks_try w s = scanNewBlocks_try (quiet w) s.
Proof.
  intros Hre Hf.
  set (busy := fun (_ : list Z) (s : State) => isScanning s = true).
  assert (HO : forall T s, busy T s -> others w s = (fun s => s) s /\ busy T (others w s)).
  { intros T s0 H0. rewrite (Hre s0 H0). split; [reflexivity | exact H0]. }
  assert (HE : forall T e s, is_getBlock e = false -> busy T s -> busy T (snd (emit e s)))
    by (intros T e s0 _ H0; exact H0).
  assert (HS : forall T l s, busy T s -> busy T (snd (set_scans l s)))
    by (intros T l s0 H0; exact H0).
  assert (HF : forall T n s, busy T s -> busy (T ++ [n])%list (snd (emit (EvGetBlock n) s)))
    by (intros T n s0 H0; exact H0).
  unfold scanNewBlocks_try, quiet. cbn [provider_getBlockNumber with_others].
  refine (proj1 (lockstep_bind (busy []) (busy []) _ _ _ _ _ _ s Hf)).
  - apply lockstep_await; [apply HO|]. apply lockstep_call.
    intros s0. apply HE. reflexivity.
  - intros H. apply lockstep_bind.
    + intros s0 H0. split; [reflexivity|].
      unfold init_watermark. rewrite (bind_normal get _ s0 s0 s0 eq_refl).
      destruct (lastProcessedBlock s0 =? 0); exact H0.
    + intros _ s0 H0. unfold scan_range.
      rewrite !(bind_normal get _ s0 s0 s0 eq_refl).
      destruct (Z.gtb_spec H (lastProcessedBlock s0)) as [Hgt|Hle];
        [|split; [reflexivity | exact H0]].
      destruct (lockstep_for_upto w (fun s => s) busy HO HE HS HF
                  (Z.to_nat (H - lastProcessedBlock s0)) H
                  (lastProcessedBlock s0 + 1) [] ltac:(lia) s0 H0) as [E I].
      unfold bind. rewrite <- E.
      destruct (for_upto w (Z.to_nat (H - lastProcessedBlock s0))
                  (lastProcessedBlock s0 + 1) H (scanBlock w) s0) as [[[]|e] s1];
        cbn [snd] in I; split; try reflexivity; exact I.
Qed.

(** C5. Calling [scanNewBlocks] while the flag is up changes nothing: no
    block is fetched and the watermark stays.  A tick during which
    [scanNewBlocks] is called again at every suspension ends exactly as the
    tick run alone.  A tick that finds the flag down returns normally with
    the flag down again, also when reading the head fails, in which case
    the watermark is as it was. *)
Theorem scanNewBlocks_single_flight :
  (forall w s, isScanning s = true -> scanNewBlocks w s = (Normal tt, s))
  /\ (forall w w2 s,
         isScanning s = false ->
         (forall s, others w s = tick w2 s) ->
         scanNewBlocks w s = scanNewBlocks (quiet w) s)
  /\ (forall w s,
         isScanning s = false ->
         fst (scanNewBlocks w s) = Normal tt /\ isScanning (tick w s) = false)
  /\ (forall w e s,
         sweep_private w -> isScanning s = false ->
         provider_getBlockNumber w = Rejects e ->
         isScanning (tick w s) = false
         /\ lastProcessedBlock (tick w s) = lastProcessedBlock s
         /\ scanned_blocks (trace (tick w s)) = scanned_blocks (trace s)).
Proof.
  split; [exact scanNewBlocks_busy|]. split; [|split].
  - intros w w2 s Hf Hre.
    rewrite !scanNewBlocks_idle by exact Hf.
    unfold finally, try_catch.
    rewrite (scanNewBlocks_try_reentrant w (snd (set_isScanning true s))).
    + reflexivity.
    + intros s0 H0. rewrite Hre. unfold tick.
      rewrite (scanNewBlocks_busy w2 s0 H0). reflexivity.
    + reflexivity.
  - intros w s Hf. unfold tick.
    rewrite scanNewBlocks_idle by exact Hf.
    unfold finally, try_catch.
    destruct (scanNewBlocks_try w (snd (set_isScanning true s))) as [[[]|e] s1];
      split; reflexivity.
  - intros w e s Hp Hf Hhead. apply (tick_rejects w s e Hp Hf Hhead).
Qed.

Lemma scanNewBlocks_single_flight_witness :
  scanNewBlocks (with_others (tick (chain_up 1)) (chain_up 1)) initial
    = scanNewBlocks (chain_up 1) initial
  /\ isScanning (tick (with_head (Rejects "timeout") (chain_up 1)) initial) = false
  /\ lastProcessedBlock (tick (with_head (Rejects "timeout") (chain_up 1)) initial) = 0.
Proof.
  split; [|split].
  - exact (proj1 (proj2 scanNewBlocks_single_flight)
             (with_others (tick (chain_up 1)) (chain_up 1)) (chain_up 1) initial
             eq_refl (fun s => eq_refl)).
  - exact (proj1 (proj2 (proj2 (proj2 scanNewBlocks_single_flight))
                    (with_head (Rejects "timeout") (chain_up 1)) "timeout" initial
                    (fun s Hs => conj Hs (conj eq_refl eq_refl)) eq_refl eq_refl)).
  - exact (proj1 (proj2 (proj2 (proj2 (proj2 scanNewBlocks_single_flight))
                    (with_head (Rejects "timeout") (chain_up 1)) "timeout" initial
                    (fun s Hs => conj Hs (conj eq_refl eq_refl)) eq_refl eq_refl))).
Defined.

(* ================================================================== *)
(** ** Further properties: scorer and store *)
(* ================================================================== *)

(** [scanWithGoPlus] does not throw, and returns [null] or a report scored. *)
Lemma scanWithGoPlus_returns w address chainId s :
  exists r, fst (scanWithGoPlus w address chainId s) = Normal r /\ scored r.
Proof.
  unfold scanWithGoPlus, try_catch, bind, await, call, emit, modify, settle, scored.
  destruct (axios_get w chainId address) as [response|e]; cbn.
  - destruct (response (JS.toLowerCase address)) as [report|]; cbn.
    + eexists. split; [reflexivity|]. right. eexists. reflexivity.
    + eexists. split; [reflexivity|]. left. reflexivity.
  - eexists. split; [reflexivity|]. left. reflexivity.
Qed.

Lemma score_report_range report :
  0 <= score (score_report report) <= 100
  /\ score (score_report report) mod 5 = 0
  /\ (isHoneypot (score_report report) = true -> score (score_report report) = 0)
  /\ (score (score_report report) = 100 ->
      isHoneypot (score_report report) = false
      /\ isMintable (score_report report) = false
      /\ ownerCanWithdraw (score_report report) = false).
Proof.
  rewrite score_report_spec. unfold score_report, spec_score, clamp, penalty.
  cbn [isHoneypot isMintable ownerCanWithdraw].
  destruct (JS.strict_eq (GoPlus.is_honeypot report) "1"),
           (JS.strict_eq (GoPlus.is_open_source report) "0"),
           (JS.strict_eq (GoPlus.is_proxy report) "1"),
           (JS.strict_eq (GoPlus.is_mintable report) "1"),
           (JS.strict_eq (GoPlus.can_take_back_ownership report) "1"),
           (parses_above_tenth (GoPlus.buy_tax report)),
           (parses_above_tenth (GoPlus.sell_tax report));
    vm_compute; repeat split; intros; try discriminate; try reflexivity.
Qed.

(** X1. Whatever the risk service answers, a score returned by
    [scanWithGoPlus] lies in [0,100] and is a multiple of 5; it is 0 when
    the honeypot flag is returned set, and it is 100 only when none of the
    three returned flags is set. *)
Theorem scanWithGoPlus_score_range :
  forall w address chainId s r,
    fst (scanWithGoPlus w address chainId s) = Normal (Some r) ->
    0 <= score r <= 100
    /\ score r mod 5 = 0
    /\ (isHoneypot r = true -> score r = 0)
    /\ (score r = 100 ->
        isHoneypot r = false /\ isMintable r = false /\ ownerCanWithdraw r = false).
Proof.
  intros w address chainId s r H.
  destruct (scanWithGoPlus_returns w address chainId s) as [r' [E [Hn|[report Hr]]]];
    rewrite E in H; injection H as H; subst r'.
  - discriminate Hn.
  - injection Hr as ->. apply score_report_range.
Qed.

Lemma scanWithGoPlus_score_range_witness :
  0 <= score (score_report scenario_report) <= 100
  /\ score (score_report scenario_report) mod 5 = 0
  /\ (isHoneypot (score_report scenario_report) = true
      -> score (score_report scenario_report) = 0)
  /\ (score (score_report scenario_report) = 100 ->
      isHoneypot (score_report scenario_report) = false
      /\ isMintable (score_report scenario_report) = false
      /\ ownerCanWithdraw (score_report scenario_report) = false).
Proof.
  exact (scanWithGoPlus_score_range
           (with_report sample_address scenario_report offline)
           sample_address default_chainId initial
           (score_report scenario_report) eq_refl).
Defined.

Section StoreMore.

Local Open Scope list_scope.

Lemma find_app {A} (p : A -> bool) (l1 l2 : list A) :
  JS.find p (l1 ++ l2)
  = match JS.find p l1 with Some r => Some r | None => JS.find p l2 end.
Proof.
  induction l1 as [|x l1 IH]; cbn [JS.find app].
  - reflexivity.
  - destruct (p x); [reflexivity | exact IH].
Qed.

Lemma find_none {A} (p : A -> bool) (l : list A) :
  Forall (fun x => p x = false) l -> JS.find p l = None.
Proof.
  induction 1 as [|x l Hx _ IH]; cbn [JS.find].
  - reflexivity.
  - rewrite Hx. exact IH.
Qed.

(** [addScan] below capacity appends; at capacity it drops the oldest entry
    and appends. *)
Lemma addScan_cases scans data :
  ((List.length scans < capacity)%nat ->
   inMemoryDB.addScan scans data = scans ++ [data])
  /\ ((capacity <= List.length scans)%nat ->
      inMemoryDB.addScan scans data = tl scans ++ [data]).
Proof.
  pose proof capacity_Z as HC.
  unfold inMemoryDB.addScan, JS.push, JS.shift.
  assert (HL : List.length (scans ++ [data]) = S (List.length scans))
    by (rewrite length_app; cbn; lia).
  split; intros H.
  - destruct (Z.ltb_spec 1000 (Z.of_nat (List.length (scans ++ [data]))));
      [lia | reflexivity].
  - destruct (Z.ltb_spec 1000 (Z.of_nat (List.length (scans ++ [data]))));
      [|lia].
    destruct scans as [|x scans]; [cbn in H; unfold capacity in H; lia | reflexivity].
Qed.

Lemma matches_names address x : matches address x = true <-> names address x.
Proof. unfold matches, names. apply String.eqb_eq. Qed.

Lemma getScan_fresh scans data address :
  names address data ->
  Forall (fun x => ~ names address x) scans ->
  inMemoryDB.getScan (inMemoryDB.addScan scans data) address = Some data.
Proof.
  intros Hd Hs.
  assert (Hnone : forall l, Forall (fun x => ~ names address x) l ->
                  JS.find (matches address) l = None).
  { intros l Hl. apply find_none. eapply Forall_impl; [|exact Hl].
    intros a Ha. destruct (matches address a) eqn:E; [|reflexivity].
    exfalso. apply Ha. apply matches_names. exact E. }
  apply matches_names in Hd.
  destruct (Nat.lt_ge_cases (List.length scans) capacity) as [Hlt|Hge].
  - rewrite (proj1 (addScan_cases scans data) Hlt).
    unfold inMemoryDB.getScan. fold (matches address).
    rewrite find_app, (Hnone scans Hs). cbn [JS.find]. rewrite Hd. reflexivity.
  - rewrite (proj2 (addScan_cases scans data) Hge).
    unfold inMemoryDB.getScan. fold (matches address).
    rewrite find_app, (Hnone (tl scans)).
    + cbn [JS.find]. rewrite Hd. reflexivity.
    + destruct scans as [|x l]; [constructor|]. inversion Hs; assumption.
Qed.

Lemma getRecent_head scans data n :
  1 <= n ->
  hd_error (inMemoryDB.getRecent (inMemoryDB.addScan scans data) (Some n)) = Some data.
Proof.
  intros Hn. rewrite getRecent_positive by exact Hn.
  assert (Hrev : exists rest, rev (inMemoryDB.addScan scans data) = data :: rest).
  { destruct (Nat.lt_ge_cases (List.length scans) capacity) as [Hlt|Hge].
    - rewrite (proj1 (addScan_cases scans data) Hlt), rev_app_distr.
      eexists. reflexivity.
    - rewrite (proj2 (addScan_cases scans data) Hge), rev_app_distr.
      eexists. reflexivity. }
  destruct Hrev as [rest ->].
  replace (Z.to_nat n) with (S (Z.to_nat (n - 1))) by lia. reflexivity.
Qed.

(** X2. Looking up an address after [addScan]: the entry just added is
    found when no older entry carries the address; while the store is below
    capacity an older entry with the address still wins, and an address
    found neither before nor in the new entry is not found; once the store
    is full the oldest entry is gone from the lookup. *)
Theorem getScan_after_addScan :
  (forall scans data address,
      names address data ->
      Forall (fun x => ~ names address x) scans ->
      inMemoryDB.getScan (inMemoryDB.addScan scans data) address = Some data)
  /\ (forall scans data address,
         (List.length scans < capacity)%nat ->
         inMemoryDB.getScan (inMemoryDB.addScan scans data) address
         = match inMemoryDB.getScan scans address with
           | Some r => Some r
           | None => if matches address data then Some data else None
           end)
  /\ (forall oldest scans data address,
         (capacity <= List.length (oldest :: scans))%nat ->
         inMemoryDB.getScan (inMemoryDB.addScan (oldest :: scans) data) address
         = inMemoryDB.getScan (scans ++ [data]) address).
Proof.
  split; [exact getScan_fresh|split].
  - intros scans data address Hlt.
    rewrite (proj1 (addScan_cases scans data) Hlt).
    unfold inMemoryDB.getScan. fold (matches address).
    rewrite find_app. cbn [JS.find].
    destruct (JS.find (matches address) scans); [reflexivity|].
    destruct (matches address data); reflexivity.
  - intros oldest scans data address Hge.
    rewrite (proj2 (addScan_cases (oldest :: scans) data) Hge). reflexivity.
Qed.

Lemma getScan_after_addScan_witness :
  inMemoryDB.getScan (inMemoryDB.addScan [] entryA)
    "0xABC0000000000000000000000000000000000001" = Some entryA.
Proof.
  apply (proj1 getScan_after_addScan [] entryA).
  - reflexivity.
  - constructor.
Defined.

(** X3. After [addScan(data)], [getRecent] with any limit of at least 1, or
    with no limit, lists [data] first. *)
Theorem getRecent_after_addScan :
  forall scans data limit,
    limit = None \/ (exists n, limit = Some n /\ 1 <= n) ->
    hd_error (inMemoryDB.getRecent (inMemoryDB.addScan scans data) limit) = Some data.
Proof.
  intros scans data limit [->|[n [-> Hn]]].
  - apply (getRecent_head scans data 50). lia.
  - apply getRecent_head. exact Hn.
Qed.

Lemma getRecent_after_addScan_witness :
  hd_error (inMemoryDB.getRecent (inMemoryDB.addScan overfull entryA) None) = Some entryA.
Proof.
  apply (getRecent_after_addScan overfull entryA None). left. reflexivity.
Defined.

End StoreMore.

(* ================================================================== *)
(** ** Further properties: the read API *)
(* ================================================================== *)

Example parseInt_decimal : JSGlobal.parseInt (Some " 25px") = Some 25.
Proof. reflexivity. Qed.
Example parseInt_hex : JSGlobal.parseInt (Some "-0x1F") = Some (-31).
Proof. reflexivity. Qed.
Example parseInt_words : JSGlobal.parseInt (Some "ten") = None.
Proof. reflexivity. Qed.
Example parseInt_absent : JSGlobal.parseInt None = None.
Proof. reflexivity. Qed.
Example parseInt_fraction : JSGlobal.parseInt (Some "2.9") = Some 2.
Proof. reflexivity. Qed.

Lemma getRecent_negative scans n :
  n < 0 ->
  inMemoryDB.getRecent scans (Some n) = rev (skipn (Z.to_nat (- n)) scans).
Proof.
  intros H. unfold inMemoryDB.getRecent, JS.reverse, JS.slice.
  destruct (Z.ltb_spec (- n) 0) as [Hlt|_]; [lia|].
  f_equal.
  destruct (Z.le_gt_cases (- n) (Z.of_nat (List.length scans))) as [Hle|Hgt].
  - f_equal. lia.
  - rewrite !skipn_all2 by lia. reflexivity.
Qed.

(** X4. [GET /api/recent-scans] always answers with [success: true], never
    with more entries than the store holds, and leaves the state as it is.
    A limit that reads as n >= 1 gives the n newest entries, newest first;
    an absent limit, one that is not a number, or 0 gives the 50 newest; a
    limit that reads as a negative -n gives every entry but the n oldest. *)
Theorem api_recent_scans_answer :
  forall query_limit s,
    exists contracts,
      api_recent_scans query_limit s
      = (Normal (Json {| RecentScans.success := true;
                         RecentScans.count := Z.of_nat (List.length contracts);
                         RecentScans.contracts := contracts |}), s)
      /\ (List.length contracts <= List.length (scans s))%nat
      /\ contracts
         = match JSGlobal.parseInt query_limit with
           | Some n =>
               if 0 <? n then firstn (Z.to_nat n) (rev (scans s))
               else if n =? 0 then firstn 50 (rev (scans s))
               else rev (skipn (Z.to_nat (- n)) (scans s))
           | None => firstn 50 (rev (scans s))
           end
      /\ (query_limit = None -> JSGlobal.parseInt query_limit = None).
Proof.
  intros query_limit s.
  exists (inMemoryDB.getRecent (scans s)
            (Some (JSGlobal.or_50 (JSGlobal.parseInt query_limit)))).
  split; [reflexivity|].
  assert (Hshape :
    inMemoryDB.getRecent (scans s)
      (Some (JSGlobal.or_50 (JSGlobal.parseInt query_limit)))
    = match JSGlobal.parseInt query_limit with
      | Some n =>
          if 0 <? n then firstn (Z.to_nat n) (rev (scans s))
          else if n =? 0 then firstn 50 (rev (scans s))
          else rev (skipn (Z.to_nat (- n)) (scans s))
      | None => firstn 50 (rev (scans s))
      end).
  { unfold JSGlobal.or_50.
    destruct (JSGlobal.parseInt query_limit) as [n|].
    - destruct (Z.ltb_spec 0 n) as [Hpos|Hnp].
      + destruct (Z.eqb_spec n 0); [lia|]. apply getRecent_positive. lia.
      + destruct (Z.eqb_spec n 0) as [Hz|Hnz].
        * apply (getRecent_positive (scans s) 50). lia.
        * apply getRecent_negative. lia.
    - apply (getRecent_positive (scans s) 50). lia. }
  split; [|split; [exact Hshape|]].
  - rewrite Hshape.
    destruct (JSGlobal.parseInt query_limit) as [n|].
    + destruct (0 <? n); [|destruct (n =? 0)].
      * rewrite length_firstn, length_rev. lia.
      * rewrite length_firstn, length_rev. lia.
      * rewrite length_rev, length_skipn. lia.
    + rewrite length_firstn, length_rev. lia.
  - intros ->. reflexivity.
Qed.

Lemma settle_await w {A} (o : outcome A) s :
  await w (settle o) s
  = (match o with Resolves a => Normal a | Rejects e => Throw e end, others w s).
Proof. unfold await, settle. destruct o; reflexivity. Qed.

(** X5. [GET /api/contract-status/:address].  When [tokenOf] returns 0 the
    answer has [hasSBT: false] and carries the earliest store entry for the
    address, letter case ignored, or [null] when there is none.  When it
    returns a positive token id the answer carries the chain's data and the
    store is not read.  When either contract call fails the answer is the
    500 with the failure's message.  In every case the handler writes
    nothing of its own to the state. *)
Theorem api_contract_status_answer :
  (forall w v address s tokenId,
      contract_tokenOf v address = Resolves tokenId -> tokenId <= 0 ->
      api_contract_status w v address s
      = (Normal (Json {| ContractStatus.success := true;
                         ContractStatus.address := address;
                         ContractStatus.hasSBT := false;
                         ContractStatus.auditData :=
                           option_map store_view
                             (inMemoryDB.getScan (scans (others w s)) address) |}),
         others w s))
  /\ (forall w v address s tokenId onChainData,
         contract_tokenOf v address = Resolves tokenId -> 0 < tokenId ->
         contract_getAuditData v tokenId = Resolves onChainData ->
         api_contract_status w v address s
         = (Normal (Json {| ContractStatus.success := true;
                            ContractStatus.address := address;
                            ContractStatus.hasSBT := true;
                            ContractStatus.auditData :=
                              Some (FromChain onChainData tokenId) |}),
            others w (others w s)))
  /\ (forall w v address s e,
         contract_tokenOf v address = Rejects e ->
         api_contract_status w v address s = (Normal (Status500 e), others w s))
  /\ (forall w v address s tokenId e,
         contract_tokenOf v address = Resolves tokenId -> 0 < tokenId ->
         contract_getAuditData v tokenId = Rejects e ->
         api_contract_status w v address s
         = (Normal (Status500 e), others w (others w s))).
Proof.
  split; [|split; [|split]].
  - intros w v address s tokenId Htok Hle.
    unfold api_contract_status, try_catch.
    erewrite bind_normal by (rewrite settle_await, Htok; reflexivity).
    destruct (Z.gtb_spec tokenId 0) as [Hgt|_]; [lia|].
    destruct (inMemoryDB.getScan (scans (others w s)) address) as [dbData|] eqn:E.
    + erewrite bind_normal.
      2:{ erewrite bind_normal by reflexivity. cbn beta. rewrite E. reflexivity. }
      reflexivity.
    + erewrite bind_normal.
      2:{ erewrite bind_normal by reflexivity. cbn beta. rewrite E. reflexivity. }
      reflexivity.
  - intros w v address s tokenId onChainData Htok Hpos Hdata.
    unfold api_contract_status, try_catch.
    erewrite bind_normal by (rewrite settle_await, Htok; reflexivity).
    destruct (Z.gtb_spec tokenId 0) as [_|Hle]; [|lia].
    erewrite bind_normal.
    2:{ erewrite bind_normal by (rewrite settle_await, Hdata; reflexivity).
        reflexivity. }
    reflexivity.
  - intros w v address s e Htok.
    unfold api_contract_status, try_catch.
    erewrite bind_throw by (rewrite settle_await, Htok; reflexivity).
    reflexivity.
  - intros w v address s tokenId e Htok Hpos Hdata.
    unfold api_contract_status, try_catch.
    erewrite bind_normal by (rewrite settle_await, Htok; reflexivity).
    destruct (Z.gtb_spec tokenId 0) as [_|Hle]; [|lia].
    erewrite bind_throw.
    2:{ erewrite bind_throw by (rewrite settle_await, Hdata; reflexivity).
        reflexivity. }
    reflexivity.
Qed.

Lemma api_contract_status_answer_witness :
  api_contract_status offline no_token
    "0xabc0000000000000000000000000000000000001"
    (snd (onAuditRequested deployment_world 7 sample_address "0xd0" 1 initial))
  = (Normal (Json {| ContractStatus.success := true;
                     ContractStatus.address := "0xabc0000000000000000000000000000000000001";
                     ContractStatus.hasSBT := false;
                     ContractStatus.auditData :=
                       Some (FromStore 50 false true false "2024-01-01T00:00:00.000Z") |}),
     snd (onAuditRequested deployment_world 7 sample_address "0xd0" 1 initial)).
Proof.
  exact (proj1 api_contract_status_answer offline no_token
           "0xabc0000000000000000000000000000000000001"
           (snd (onAuditRequested deployment_world 7 sample_address "0xd0" 1 initial))
           0 eq_refl ltac:(lia)).
Defined.

(* ================================================================== *)
(** ** Further properties: what the two flows keep *)
(* ================================================================== *)

Lemma keeps_ret {A} Inv (a : A) (V : A -> Prop) : V a -> keeps Inv (ret a) V.
Proof.
  intros Ha s Hs. split; [exact Hs|]. intros a' E. injection E as <-. exact Ha.
Qed.

Lemma keeps_throw {A} Inv e (V : A -> Prop) : keeps Inv (@throw A e) V.
Proof. intros s Hs. split; [exact Hs|]. intros a E. discriminate E. Qed.

Lemma keeps_weaken {A} Inv (m : M A) (V W : A -> Prop) :
  keeps Inv m V -> (forall a, V a -> W a) -> keeps Inv m W.
Proof.
  intros Hm HVW s Hs. destruct (Hm s Hs) as [I HV].
  split; [exact I|]. intros a E. apply HVW, HV, E.
Qed.

Lemma keeps_bind {A B} Inv (m : M A) (k : A -> M B) (V : A -> Prop) (W : B -> Prop) :
  keeps Inv m V -> (forall a, V a -> keeps Inv (k a) W) -> keeps Inv (bind m k) W.
Proof.
  intros Hm Hk s Hs. unfold bind.
  destruct (Hm s Hs) as [I HV].
  destruct (m s) as [[a|e] s1]; cbn [fst snd] in *.
  - apply (Hk a (HV a eq_refl) s1 I).
  - split; [exact I|]. intros b E. discriminate E.
Qed.

Lemma keeps_try_catch {A} Inv (m : M A) (h : string -> M A) (V W : A -> Prop) :
  keeps Inv m V -> (forall a, V a -> W a) -> (forall e, keeps Inv (h e) W) ->
  keeps Inv (try_catch m h) W.
Proof.
  intros Hm HVW Hh s Hs. unfold try_catch.
  destruct (Hm s Hs) as [I HV].
  destruct (m s) as [[a|e] s1]; cbn [fst snd] in *.
  - split; [exact I|]. intros a' E. injection E as <-. apply HVW, HV. reflexivity.
  - apply (Hh e s1 I).
Qed.

Lemma keeps_finally {A} Inv (m : M A) (cleanup : M unit) (V : A -> Prop) :
  keeps Inv m V -> keeps Inv cleanup (fun _ => True) ->
  keeps Inv (finally m cleanup) V.
Proof.
  intros Hm Hc s Hs. unfold finally.
  destruct (Hm s Hs) as [I HV].
  destruct (m s) as [r s1]; cbn [fst snd] in *.
  destruct (Hc s1 I) as [I2 _].
  destruct (cleanup s1) as [[u|e] s2]; cbn [fst snd] in *.
  - split; [exact I2 | exact HV].
  - split; [exact I2|]. intros a E. discriminate E.
Qed.

Lemma keeps_await {A} w Inv (m : M A) (V : A -> Prop) :
  (forall s, Inv s -> Inv (others w s)) -> keeps Inv m V -> keeps Inv (await w m) V.
Proof.
  intros HO Hm s Hs. unfold await.
  destruct (Hm s Hs) as [I HV].
  destruct (m s) as [r s1]; cbn [fst snd] in *.
  split; [apply HO; exact I | exact HV].
Qed.

Lemma keeps_call {A} Inv e (o : outcome A) :
  (forall s, Inv s -> Inv (snd (emit e s))) ->
  keeps Inv (call e o) (fun a => o = Resolves a).
Proof.
  intros HE s Hs. pose proof (HE s Hs) as I.
  unfold call, bind. destruct (emit e s) as [[[]|x] s1] eqn:E; cbn [snd] in I.
  - destruct o as [a|msg]; cbn [settle ret throw fst snd].
    + split; [exact I|]. intros a' Ea. injection Ea as <-. reflexivity.
    + split; [exact I|]. intros a' Ea. discriminate Ea.
  - discriminate E.
Qed.

Lemma keeps_get Inv : keeps Inv get (fun _ => True).
Proof. intros s Hs. split; [exact Hs | intros; exact I]. Qed.

Lemma keeps_for_of {A} Inv (xs : list A) (body : A -> M unit) :
  (forall x, keeps Inv (body x) (fun _ => True)) ->
  keeps Inv (for_of xs body) (fun _ => True).
Proof.
  intros Hb. induction xs as [|x xs IH]; cbn [for_of].
  - apply keeps_ret. exact I.
  - eapply keeps_bind; [apply Hb | intros _ _; exact IH].
Qed.

Lemma truthy_nonempty a :
  truthy a = true -> exists addr, a = Some addr /\ addr <> EmptyString.
Proof.
  destruct a as [addr|]; cbn; [|discriminate].
  intros H. exists addr. split; [reflexivity|].
  intros ->. discriminate H.
Qed.

(** What the code of the two flows keeps of an invariant [Inv] that the
    other callbacks, the outgoing calls and the appends of well-formed
    entries keep. *)
Section Keeps.

Variable w : World.
Variable Inv : State -> Prop.

Hypothesis K_others : forall s, Inv s -> Inv (others w s).
Hypothesis K_emit : forall e s, is_fulfill e = false -> Inv s -> Inv (snd (emit e s)).
Hypothesis K_sweep :
  forall blockNumber data s,
    sweep_entry blockNumber data -> Inv s -> Inv (snd (addScan data s)).
Hypothesis K_watermark : forall n s, Inv s -> Inv (snd (set_lastProcessedBlock n s)).
Hypothesis K_flag : forall b s, Inv s -> Inv (snd (set_isScanning b s)).
Hypothesis K_fulfill :
  forall requestId sc hp mint ocw gas s,
    Inv s -> Inv (snd (emit (EvFulfillAudit requestId sc hp mint ocw gas) s)).
Hypothesis K_audit :
  forall target data s, audit_entry target data -> Inv s -> Inv (snd (addScan data s)).

Lemma keeps_scanWithGoPlus address chainId :
  keeps Inv (scanWithGoPlus w address chainId) scored.
Proof.
  unfold scanWithGoPlus.
  eapply keeps_try_catch with (V := scored).
  - eapply keeps_bind.
    + apply keeps_await; [exact K_others|].
      apply keeps_call. intros s. apply K_emit. reflexivity.
    + intros response _.
      destruct (response (JS.toLowerCase address)) as [report|];
        apply keeps_ret; [right; eexists; reflexivity | left; reflexivity].
  - auto.
  - intros e. apply keeps_ret. left. reflexivity.
Qed.

Lemma keeps_scanTransaction blockNumber txHash :
  keeps Inv (scanTransaction w blockNumber txHash) (fun _ => True).
Proof.
  unfold scanTransaction.
  eapply keeps_bind.
  { apply keeps_await; [exact K_others|].
    apply keeps_call. intros s. apply K_emit. reflexivity. }
  intros tx _.
  eapply keeps_bind.
  { apply keeps_await; [exact K_others|].
    apply keeps_call. intros s. apply K_emit. reflexivity. }
  intros [receipt|] _; [|apply keeps_ret; exact I].
  destruct (truthy (contractAddress receipt)) eqn:Et; [|apply keeps_ret; exact I].
  destruct (truthy_nonempty _ Et) as [addr [Ea Hne]]. rewrite Ea.
  eapply keeps_bind with (V := fun _ => True).
  { intros s Hs. split; [destruct tx; exact Hs | intros; exact I]. }
  intros deployer _.
  eapply keeps_bind.
  { apply keeps_await; [exact K_others | apply keeps_scanWithGoPlus]. }
  intros [scanResult|] Hsc; [|apply keeps_ret; exact I].
  destruct Hsc as [Hn|[report Hr]]; [discriminate Hn|]. injection Hr as ->.
  intros s Hs. split; [|intros; exact I].
  apply (K_sweep blockNumber); [|exact Hs].
  destruct (score_report_range report) as [Hrange [_ [Hhp _]]].
  unfold sweep_entry. cbn [Scan.contract_address Scan.has_sbt Scan.block_number
    Scan.deployer Scan.score Scan.is_honeypot].
  repeat split; try exact Hne; try discriminate; try apply Hrange; exact Hhp.
Qed.

Lemma keeps_scanBlock blockNumber :
  keeps Inv (scanBlock w blockNumber) (fun _ => True).
Proof.
  unfold scanBlock.
  eapply keeps_try_catch with (V := fun _ => True); [|auto|intros e; apply keeps_ret; exact I].
  eapply keeps_bind.
  - apply keeps_await; [exact K_others|].
    apply keeps_call. intros s. apply K_emit. reflexivity.
  - intros [block|] _; [|apply keeps_ret; exact I].
    apply keeps_for_of. intros txHash. apply keeps_scanTransaction.
Qed.

(** The tick, given what a block scan keeps. *)
Lemma keeps_scanNewBlocks_from :
  (forall blockNumber, keeps Inv (scanBlock w blockNumber) (fun _ => True)) ->
  keeps Inv (scanNewBlocks w) (fun _ => True).
Proof.
  intros Hblock.
  assert (Hloop : forall fuel hi i,
            keeps Inv (for_upto w fuel i hi (scanBlock w)) (fun _ => True)).
  { induction fuel as [|fuel IH]; intros hi i; cbn [for_upto].
    - apply keeps_ret. exact I.
    - destruct (i <=? hi); [|apply keeps_ret; exact I].
      eapply keeps_bind.
      + apply keeps_await; [exact K_others | apply Hblock].
      + intros _ _. apply IH. }
  unfold scanNewBlocks.
  eapply keeps_bind; [apply keeps_get|]. intros s0 _.
  destruct (isScanning s0); [apply keeps_ret; exact I|].
  eapply keeps_bind.
  { intros s Hs. split; [apply K_flag; exact Hs | intros; exact I]. }
  intros _ _.
  apply keeps_finally.
  2:{ intros s Hs. split; [apply K_flag; exact Hs | intros; exact I]. }
  eapply keeps_try_catch with (V := fun _ => True);
    [|auto|intros e; apply keeps_ret; exact I].
  unfold scanNewBlocks_try.
  eapply keeps_bind.
  { apply keeps_await; [exact K_others|].
    apply keeps_call. intros s. apply K_emit. reflexivity. }
  intros currentBlock _.
  eapply keeps_bind with (V := fun _ => True).
  { unfold init_watermark. eapply keeps_bind; [apply keeps_get|]. intros s1 _.
    destruct (lastProcessedBlock s1 =? 0); [|apply keeps_ret; exact I].
    intros s Hs. split; [apply K_watermark; exact Hs | intros; exact I]. }
  intros _ _. unfold scan_range.
  eapply keeps_bind; [apply keeps_get|]. intros s1 _.
  destruct (currentBlock >? lastProcessedBlock s1); [|apply keeps_ret; exact I].
  eapply keeps_bind; [apply Hloop|]. intros _ _.
  intros s Hs. split; [apply K_watermark; exact Hs | intros; exact I].
Qed.

Lemma keeps_scanNewBlocks : keeps Inv (scanNewBlocks w) (fun _ => True).
Proof. apply keeps_scanNewBlocks_from. exact keeps_scanBlock. Qed.

Lemma keeps_onAuditRequested requestId target requester fee :
  keeps Inv (onAuditRequested w requestId target requester fee) (fun _ => True).
Proof.
  unfold onAuditRequested.
  eapply keeps_try_catch with (V := fun _ => True);
    [|auto|intros e; apply keeps_ret; exact I].
  eapply keeps_bind.
  { apply keeps_await; [exact K_others | apply keeps_scanWithGoPlus]. }
  intros scanResult Hsc.
  eapply keeps_bind with (V := fun r => exists report, r = score_report report).
  { destruct scanResult as [r|].
    - destruct Hsc as [Hn|[report Hr]]; [discriminate Hn|]. injection Hr as ->.
      apply keeps_ret. eexists. reflexivity.
    - apply keeps_throw. }
  intros r [report ->].
  eapply keeps_bind.
  { apply keeps_await; [exact K_others|]. apply keeps_call. intros s. apply K_fulfill. }
  intros tx _.
  eapply keeps_bind.
  { apply keeps_await; [exact K_others|].
    apply keeps_call. intros s. apply K_emit. reflexivity. }
  intros receipt _.
  destruct (status receipt =? 1); [|apply keeps_ret; exact I].
  intros s Hs. split; [|intros; exact I].
  apply (K_audit target); [|exact Hs].
  destruct (score_report_range report) as [Hrange [_ [Hhp _]]].
  unfold audit_entry. cbn [Scan.contract_address Scan.has_sbt Scan.block_number
    Scan.deployer Scan.score Scan.is_honeypot].
  repeat split; try apply Hrange; exact Hhp.
Qed.

End Keeps.

Section Invariants.

Local Open Scope list_scope.

Lemma store_ok_add scans data :
  entry_ok data -> store_ok scans -> store_ok (inMemoryDB.addScan scans data).
Proof.
  intros Hd [Hlen Hall]. split.
  - apply addScan_length. exact Hlen.
  - destruct (Nat.lt_ge_cases (List.length scans) capacity) as [Hlt|Hge].
    + rewrite (proj1 (addScan_cases scans data) Hlt).
      apply Forall_app. split; [exact Hall | constructor; [exact Hd | constructor]].
    + rewrite (proj2 (addScan_cases scans data) Hge).
      apply Forall_app. split; [|constructor; [exact Hd | constructor]].
      destruct scans as [|x l]; [constructor | inversion Hall; assumption].
Qed.

Lemma perform_keeps_store a s :
  (forall s, store_ok (scans s) -> store_ok (scans (others (world_of a) s))) ->
  store_ok (scans s) -> store_ok (scans (perform a s)).
Proof.
  intros HO Hs.
  assert (KE : forall e s, is_fulfill e = false -> store_ok (scans s) ->
                           store_ok (scans (snd (emit e s))))
    by (intros e s0 _ H0; exact H0).
  destruct a as [w requestId target requester fee | w]; cbn [perform world_of] in *.
  - apply (keeps_onAuditRequested w (fun s => store_ok (scans s)) HO KE).
    + intros. assumption.
    + intros t data s0 Hd H0. cbn. apply store_ok_add; [|exact H0].
      left. exists t. exact Hd.
    + exact Hs.
  - unfold tick.
    apply (keeps_scanNewBlocks w (fun s => store_ok (scans s)) HO KE).
    + intros bn data s0 Hd H0. cbn. apply store_ok_add; [|exact H0].
      right. exists bn. exact Hd.
    + intros. assumption.
    + intros. assumption.
    + exact Hs.
Qed.

(** X6. Whatever requests arrive and however often the timer fires, in
    whatever worlds, the store holds at most 1000 entries, and each is
    either an on-demand entry ([has_sbt] true, no block number, no
    deployer) or a sweep entry ([has_sbt] false, block number and deployer
    set, a non-empty address), with a score in [0,100] that is 0 when the
    honeypot flag is set; [GET /api/health] reports a count of at most
    1000.  The callbacks that run in between are assumed to keep the same. *)
Theorem store_stays_well_formed :
  forall l s,
    Forall (fun a => forall s, store_ok (scans s) ->
                               store_ok (scans (others (world_of a) s))) l ->
    store_ok (scans s) ->
    store_ok (scans (perform_all l s))
    /\ forall w, exists body,
         api_health w (perform_all l s) = (Normal (Json body), perform_all l s)
         /\ 0 <= Health.scans_stored body <= 1000.
Proof.
  intros l s HO Hs.
  assert (Hfinal : store_ok (scans (perform_all l s))).
  { revert s Hs. induction HO as [|a l Ha _ IH]; intros s Hs.
    - exact Hs.
    - cbn [perform_all fold_left]. apply IH. apply perform_keeps_store; assumption. }
  split; [exact Hfinal|].
  intros w. eexists. split; [reflexivity|].
  cbn [Health.scans_stored]. destruct Hfinal as [Hlen _].
  pose proof capacity_Z. lia.
Qed.

Lemma store_stays_well_formed_witness :
  store_ok (scans (perform_all busy_day initial)).
Proof.
  apply (store_stays_well_formed busy_day initial).
  - unfold busy_day. repeat (apply Forall_cons; [intros s Hs; exact Hs|]).
    apply Forall_nil.
  - split; [cbn; unfold capacity; lia | constructor].
Defined.

Lemma fulfill_count_emit e s :
  fulfill_count (trace (snd (emit e s)))
  = (fulfill_count (trace s) + if is_fulfill e then 1 else 0)%nat.
Proof.
  unfold fulfill_count, emit, modify. cbn [snd trace].
  rewrite filter_app, length_app. destruct e; reflexivity.
Qed.

(** X7. A tick of the sweep submits no transaction, and whatever it adds to
    the store is a sequence of sweep entries: [has_sbt] false, a block
    number, a deployer, a non-empty address, a score in [0,100].  The
    callbacks that run in between are assumed to leave the store and the
    count of submissions alone. *)
Theorem tick_records_without_submitting :
  forall w s,
    (forall s, scans (others w s) = scans s
               /\ fulfill_count (trace (others w s)) = fulfill_count (trace s)) ->
    fulfill_count (trace (tick w s)) = fulfill_count (trace s)
    /\ exists new,
         scans (tick w s) = add_all new (scans s)
         /\ Forall (fun e => exists blockNumber, sweep_entry blockNumber e) new.
Proof.
  intros w s HO.
  set (Inv := fun s' : State =>
    fulfill_count (trace s') = fulfill_count (trace s)
    /\ exists new,
         scans s' = add_all new (scans s)
         /\ Forall (fun e => exists blockNumber, sweep_entry blockNumber e) new).
  assert (H : Inv (tick w s)).
  { unfold tick. apply (keeps_scanNewBlocks w Inv).
    - intros s0 [Hc [new [Hs Hn]]]. destruct (HO s0) as [Es Ec].
      split; [congruence|]. exists new. split; [congruence | exact Hn].
    - intros e s0 He [Hc [new [Hs Hn]]]. split.
      + rewrite fulfill_count_emit, He. lia.
      + exists new. split; [exact Hs | exact Hn].
    - intros bn data s0 Hd [Hc [new [Hs Hn]]]. split; [exact Hc|].
      exists (new ++ [data]). split.
      + cbn. rewrite Hs. unfold add_all. rewrite fold_left_app. reflexivity.
      + apply Forall_app. split; [exact Hn|].
        constructor; [exists bn; exact Hd | constructor].
    - intros n s0 H0. exact H0.
    - intros b s0 H0. exact H0.
    - split; [reflexivity|]. exists []. split; [reflexivity | constructor]. }
  exact H.
Qed.

Lemma tick_records_without_submitting_witness :
  fulfill_count (trace (tick deployment_world initial)) = 0%nat
  /\ exists new,
       scans (tick deployment_world initial) = add_all new []
       /\ Forall (fun e => exists blockNumber, sweep_entry blockNumber e) new.
Proof.
  exact (tick_records_without_submitting deployment_world initial
           (fun s => conj eq_refl eq_refl)).
Defined.

End Invariants.

Lemma try_catch_quiet_normal {A} (m : M A) (a : A) s :
  exists r, fst (try_catch m (fun _ => ret a) s) = Normal r.
Proof.
  unfold try_catch. destruct (m s) as [[r|e] s1]; eexists; reflexivity.
Qed.

Lemma onAuditRequested_send_fails w requestId target requester fee response report e s :
  (forall s, others w s = s) ->
  axios_get w default_chainId target = Resolves response ->
  response (JS.toLowerCase target) = Some report ->
  contract_fulfillAudit w requestId (score (score_report report))
    (isHoneypot (score_report report)) (isMintable (score_report report))
    (ownerCanWithdraw (score_report report)) = Rejects e ->
  let r := score_report report in
  let s' := snd (onAuditRequested w requestId target requester fee s) in
  trace s' = (trace s ++ [EvAxiosGet default_chainId target;
                          EvFulfillAudit requestId (score r) (isHoneypot r)
                            (isMintable r) (ownerCanWithdraw r) 300000])%list
  /\ scans s' = scans s.
Proof.
  intros Hq Hget Hrep Hsend r s'. subst r s'. run_handler.
  rewrite Hget. cbn -[score_report]. rewrite !Hq, Hrep. cbn -[score_report].
  rewrite !Hq, Hsend. cbn -[score_report]. rewrite !Hq.
  cbn -[score_report]. rewrite <- !app_assoc. split; reflexivity.
Qed.

Lemma onAuditRequested_wait_fails w requestId target requester fee response report tx e s :
  (forall s, others w s = s) ->
  axios_get w default_chainId target = Resolves response ->
  response (JS.toLowerCase target) = Some report ->
  contract_fulfillAudit w requestId (score (score_report report))
    (isHoneypot (score_report report)) (isMintable (score_report report))
    (ownerCanWithdraw (score_report report)) = Resolves tx ->
  tx_wait w (hash tx) = Rejects e ->
  let r := score_report report in
  let s' := snd (onAuditRequested w requestId target requester fee s) in
  trace s' = (trace s ++ [EvAxiosGet default_chainId target;
                          EvFulfillAudit requestId (score r) (isHoneypot r)
                            (isMintable r) (ownerCanWithdraw r) 300000;
                          EvTxWait (hash tx)])%list
  /\ scans s' = scans s.
Proof.
  intros Hq Hget Hrep Hsend Hwait r s'. subst r s'. run_handler.
  rewrite Hget. cbn -[score_report]. rewrite !Hq, Hrep. cbn -[score_report].
  rewrite !Hq, Hsend. cbn -[score_report]. rewrite !Hq, Hwait.
  cbn -[score_report]. rewrite !Hq.
  cbn -[score_report]. rewrite <- !app_assoc. split; reflexivity.
Qed.

(** X8. The on-demand handler never throws, whatever fails inside it, and
    leaves the sweep's watermark and flag alone.  Run on its own it submits
    exactly one transaction when the scorer returns a result and none when
    it returns [null]; the store is left as it was or gains one on-demand
    entry for the target. *)
Theorem onAuditRequested_effects :
  (forall w requestId target requester fee s,
      fst (onAuditRequested w requestId target requester fee s) = Normal tt)
  /\ (forall w requestId target requester fee s,
         (forall s, lastProcessedBlock (others w s) = lastProcessedBlock s
                    /\ isScanning (others w s) = isScanning s) ->
         let s' := snd (onAuditRequested w requestId target requester fee s) in
         lastProcessedBlock s' = lastProcessedBlock s
         /\ isScanning s' = isScanning s)
  /\ (forall w requestId target requester fee s,
         (forall s, others w s = s) ->
         let s' := snd (onAuditRequested w requestId target requester fee s) in
         fulfill_count (trace s')
         = (fulfill_count (trace s)
            + match fst (scanWithGoPlus w target default_chainId s) with
              | Normal (Some _) => 1
              | _ => 0
              end)%nat
         /\ (scans s' = scans s
             \/ exists data,
                  audit_entry target data
                  /\ scans s' = inMemoryDB.addScan (scans s) data)).
Proof.
  split; [|split].
  - intros w requestId target requester fee s. unfold onAuditRequested.
    destruct (try_catch_quiet_normal
                (scanResult <- await w (scanWithGoPlus w target default_chainId) ;;
                 scanResult <-
                   match scanResult with
                   | Some r => ret r
                   | None =>
                       assign_const "scanResult"
                         {| score := 50; isHoneypot := false; isMintable := false;
                            ownerCanWithdraw := false; rawData := None |}
                   end ;;
                 tx <- await w
                   (call (EvFulfillAudit requestId (score scanResult)
                            (isHoneypot scanResult) (isMintable scanResult)
                            (ownerCanWithdraw scanResult) 300000)
                      (contract_fulfillAudit w requestId (score scanResult)
                         (isHoneypot scanResult) (isMintable scanResult)
                         (ownerCanWithdraw scanResult))) ;;
                 receipt <- await w (call (EvTxWait (hash tx)) (tx_wait w (hash tx))) ;;
                 if status receipt =? 1
                 then addScan
                        {| Scan.contract_address := target;
                           Scan.score := score scanResult;
                           Scan.is_honeypot := isHoneypot scanResult;
                           Scan.is_mintable := isMintable scanResult;
                           Scan.owner_can_withdraw := ownerCanWithdraw scanResult;
                           Scan.block_number := None;
                           Scan.deployer := None;
                           Scan.has_sbt := true;
                           Scan.scanned_at := now w |}
                 else ret tt) tt s) as [[] E].
    exact E.
  - intros w requestId target requester fee s HO s'.
    set (Inv := fun s0 : State =>
      lastProcessedBlock s0 = lastProcessedBlock s /\ isScanning s0 = isScanning s).
    assert (H : Inv s').
    { apply (keeps_onAuditRequested w Inv).
      - intros s0 [Hl Hf]. destruct (HO s0) as [El Ef]. split; congruence.
      - intros e s0 _ H0. exact H0.
      - intros. assumption.
      - intros t data s0 _ H0. exact H0.
      - split; reflexivity. }
    exact H.
  - intros w requestId target requester fee s Hq s'.
    destruct (axios_get w default_chainId target) as [response|e] eqn:Hget.
    2:{ pose proof (scanWithGoPlus_unreachable w target default_chainId e s Hget) as Hn.
        destruct (onAuditRequested_null_scan w requestId target requester fee s Hq Hn)
          as [_ [Ht Hs]].
        fold s' in Ht, Hs. rewrite Hn, Ht. split; [|left; exact Hs].
        unfold fulfill_count. rewrite filter_app, length_app. reflexivity. }
    destruct (response (JS.toLowerCase target)) as [report|] eqn:Hrep.
    2:{ pose proof (scanWithGoPlus_no_data w target default_chainId response s Hget Hrep)
          as Hn.
        destruct (onAuditRequested_null_scan w requestId target requester fee s Hq Hn)
          as [_ [Ht Hs]].
        fold s' in Ht, Hs. rewrite Hn, Ht. split; [|left; exact Hs].
        unfold fulfill_count. rewrite filter_app, length_app. reflexivity. }
    rewrite (scanWithGoPlus_report w target default_chainId response report s Hget Hrep).
    destruct (contract_fulfillAudit w requestId (score (score_report report))
                (isHoneypot (score_report report)) (isMintable (score_report report))
                (ownerCanWithdraw (score_report report))) as [tx|e] eqn:Hsend.
    2:{ destruct (onAuditRequested_send_fails w requestId target requester fee
                    response report e s Hq Hget Hrep Hsend) as [Ht Hs].
        fold s' in Ht, Hs. rewrite Ht. split; [|left; exact Hs].
        unfold fulfill_count. rewrite filter_app, length_app. reflexivity. }
    destruct (tx_wait w (hash tx)) as [receipt|e] eqn:Hwait.
    2:{ destruct (onAuditRequested_wait_fails w requestId target requester fee
                    response report tx e s Hq Hget Hrep Hsend Hwait) as [Ht Hs].
        fold s' in Ht, Hs. rewrite Ht. split; [|left; exact Hs].
        unfold fulfill_count. rewrite filter_app, length_app. reflexivity. }
    destruct (onAuditRequested_report w requestId target requester fee
                response report tx receipt s Hq Hget Hrep Hsend Hwait) as [Ht Hs].
    fold s' in Ht, Hs. split.
    + rewrite Ht. unfold fulfill_count. rewrite filter_app, length_app. reflexivity.
    + destruct (status receipt =? 1); [right | left; exact Hs].
      eexists. split; [|exact Hs].
      destruct (score_report_range report) as [Hrange [_ [Hhp _]]].
      unfold audit_entry. cbn [Scan.contract_address Scan.has_sbt Scan.block_number
        Scan.deployer Scan.score Scan.is_honeypot].
      repeat split; try apply Hrange; exact Hhp.
Qed.

Lemma onAuditRequested_effects_witness :
  let s' := snd (onAuditRequested deployment_world 7 sample_address "0xd0" 1 initial) in
  (lastProcessedBlock s' = 0 /\ isScanning s' = false)
  /\ fulfill_count (trace s') = 1%nat.
Proof.
  intros s'. split.
  - exact (proj1 (proj2 onAuditRequested_effects) deployment_world 7 sample_address
             "0xd0" 1 initial (fun s => conj eq_refl eq_refl)).
  - exact (proj1 (proj2 (proj2 onAuditRequested_effects) deployment_world 7
                    sample_address "0xd0" 1 initial (fun s => eq_refl))).
Defined.

(* ================================================================== *)
(** ** Further properties: the sweep's coverage *)
(* ================================================================== *)

Section Coverage.

Local Open Scope list_scope.

Lemma bind_assoc {A B C} (m : M A) (k : A -> M B) (k2 : B -> M C) s :
  bind (bind m k) k2 s = bind m (fun a => bind (k a) k2) s.
Proof. unfold bind. destruct (m s) as [[a|e] s1]; reflexivity. Qed.

Lemma for_of_app {A} (xs ys : list A) (body : A -> M unit) s :
  for_of (xs ++ ys) body s = bind (for_of xs body) (fun _ => for_of ys body) s.
Proof.
  revert s. induction xs as [|x xs IH]; intros s; cbn [for_of app].
  - reflexivity.
  - rewrite bind_assoc.
    destruct (body x s) as [[[]|e] s1] eqn:E.
    + rewrite !(bind_normal _ _ s tt s1 E). apply IH.
    + rewrite !(bind_throw _ _ s e s1 E). reflexivity.
Qed.

Lemma scanTransaction_fails w blockNumber txHash s :
  fails_at w txHash ->
  exists e s', scanTransaction w blockNumber txHash s = (Throw e, s').
Proof.
  intros Hf. unfold scanTransaction.
  destruct (provider_getTransaction w txHash) as [tx|e1] eqn:Etx.
  2:{ erewrite bind_throw; [eexists; eexists; reflexivity|].
      unfold await, call. erewrite bind_normal by reflexivity.
      reflexivity. }
  erewrite bind_normal.
  2:{ unfold await, call. erewrite bind_normal by reflexivity.
      reflexivity. }
  destruct (provider_getTransactionReceipt w txHash) as [receipt|e2] eqn:Erc.
  2:{ erewrite bind_throw; [eexists; eexists; reflexivity|].
      unfold await, call. erewrite bind_normal by reflexivity.
      reflexivity. }
  erewrite bind_normal.
  2:{ unfold await, call. erewrite bind_normal by reflexivity.
      reflexivity. }
  destruct Hf as [[e He]|[[e He]|[Hnull [rc [Hrc Ht]]]]]; try congruence.
  rewrite Etx in Hnull. injection Hnull as ->.
  rewrite Erc in Hrc. injection Hrc as ->. rewrite Ht.
  erewrite bind_throw; [eexists; eexists; reflexivity | reflexivity].
Qed.

Lemma for_of_stops w blockNumber xs txHash ys s :
  fails_at w txHash ->
  for_of (xs ++ txHash :: ys) (scanTransaction w blockNumber) s
  = for_of (xs ++ [txHash]) (scanTransaction w blockNumber) s.
Proof.
  intros Hf. rewrite !for_of_app.
  destruct (for_of xs (scanTransaction w blockNumber) s) as [[[]|e] s1] eqn:E.
  - rewrite !(bind_normal _ _ s tt s1 E). cbn [for_of].
    destruct (scanTransaction_fails w blockNumber txHash s1 Hf) as [e [s2 E2]].
    rewrite !(bind_throw _ _ s1 e s2 E2). reflexivity.
  - rewrite !(bind_throw _ _ s e s1 E). reflexivity.
Qed.

(** X9. When scanning a transaction of a block fails (its body or receipt
    cannot be fetched, or it created a contract and its body is [null]),
    [scanBlock] stops there: it behaves exactly as on the block cut after
    that transaction, so what the earlier transactions recorded is kept,
    the later ones are never looked at, and [scanBlock] returns normally. *)
Theorem scanBlock_stops_at_failing_transaction :
  forall w blockNumber xs txHash ys s,
    fails_at w txHash ->
    scanBlock (with_block blockNumber (xs ++ txHash :: ys) w) blockNumber s
    = scanBlock (with_block blockNumber (xs ++ [txHash]) w) blockNumber s
    /\ fst (scanBlock (with_block blockNumber (xs ++ txHash :: ys) w) blockNumber s)
       = Normal tt.
Proof.
  intros w blockNumber xs txHash ys s Hf.
  split; [|apply scanBlock_normal].
  unfold scanBlock, try_catch.
  assert (Hget : forall l,
    await (with_block blockNumber l w)
      (call (EvGetBlock blockNumber)
         (provider_getBlock (with_block blockNumber l w) blockNumber)) s
    = (Normal (Some {| transactions := l |}),
       others w (snd (emit (EvGetBlock blockNumber) s)))).
  { intros l. unfold await, call. erewrite bind_normal by reflexivity.
    cbn [provider_getBlock with_block]. rewrite Z.eqb_refl. reflexivity. }
  rewrite (bind_normal _ _ _ _ _ (Hget (xs ++ txHash :: ys))).
  rewrite (bind_normal _ _ _ _ _ (Hget (xs ++ [txHash]))).
  cbn [transactions].
  change (scanTransaction (with_block blockNumber (xs ++ txHash :: ys) w) blockNumber)
    with (scanTransaction w blockNumber).
  change (scanTransaction (with_block blockNumber (xs ++ [txHash]) w) blockNumber)
    with (scanTransaction w blockNumber).
  rewrite (for_of_stops w blockNumber xs txHash ys _ Hf). reflexivity.
Qed.

Lemma scanBlock_stops_at_failing_transaction_witness :
  scanBlock (with_block 103 (["0xaa"] ++ "0xbb" :: ["0xcc"]) flaky_world) 103 initial
  = scanBlock (with_block 103 (["0xaa"] ++ ["0xbb"]) flaky_world) 103 initial
  /\ fst (scanBlock (with_block 103 (["0xaa"] ++ "0xbb" :: ["0xcc"]) flaky_world)
            103 initial) = Normal tt.
Proof.
  apply (scanBlock_stops_at_failing_transaction flaky_world 103 ["0xaa"] "0xbb" ["0xcc"]).
  left. exists "ETIMEDOUT". reflexivity.
Defined.

Lemma block_range_app n : forall m i,
  block_range (n + m) i = block_range n i ++ block_range m (i + Z.of_nat n).
Proof.
  induction n as [|n IH]; intros m i.
  - cbn. f_equal. lia.
  - cbn [Nat.add block_range app]. rewrite IH. do 3 f_equal. lia.
Qed.

Lemma nondecreasing_prefix l1 l2 : nondecreasing (l1 ++ l2) -> nondecreasing l1.
Proof.
  intros H i j a b Hij Hi Hj.
  apply (H i j a b Hij).
  - rewrite nth_error_app1; [exact Hi | apply nth_error_Some; congruence].
  - rewrite nth_error_app1; [exact Hj | apply nth_error_Some; congruence].
Qed.

Lemma heads_snoc ws w :
  heads (ws ++ [w])
  = heads ws ++ match provider_getBlockNumber w with
                | Resolves H => [H]
                | Rejects _ => []
                end.
Proof. unfold heads. rewrite flat_map_app. cbn. rewrite app_nil_r. reflexivity. Qed.

Lemma run_ticks_covered ws :
  Forall sweep_private ws ->
  Forall (fun H => 1 <= H) (heads ws) ->
  nondecreasing (heads ws) ->
  covered (heads ws) (run_ticks ws initial).
Proof.
  induction ws as [|w ws IH] using rev_ind; intros Hp Hpos Hmono.
  - split; [reflexivity|]. left. repeat split.
  - apply Forall_app in Hp as [Hp Hpw]. inversion Hpw as [|? ? Hpw' _]; subst.
    rewrite heads_snoc in Hpos, Hmono.
    apply Forall_app in Hpos as [Hpos Hposw].
    destruct (IH Hp Hpos (nondecreasing_prefix _ _ Hmono)) as [If Icase].
    rewrite run_ticks_snoc, heads_snoc.
    destruct (provider_getBlockNumber w) as [H|e] eqn:Hhead.
    + destruct (tick_resolves w (run_ticks ws initial) H Hpw' If Hhead)
        as [Tf [Tl Tt]].
      inversion Hposw as [|? ? HposH _]; subst.
      split; [exact Tf|]. right.
      destruct Icase as [[Hnil [Hz Hs]]|[first [pre [Hhd [Hlast [Hle Hs]]]]]].
      * unfold start_of in Tl, Tt. rewrite Hz in Tl, Tt. cbn [Z.eqb] in Tl, Tt.
        assert (Hgt : (H >? H - 1) = true) by (apply Z.gtb_lt; lia).
        rewrite Hgt in Tl, Tt. rewrite Hs in Tt.
        exists H, []. rewrite Hnil, Tl. repeat split; try lia.
        rewrite Tt. cbn [app].
        replace (H - (H - 1)) with 1 by lia.
        replace (H - 1 + 1) with H by lia.
        replace (H - H + 1) with 1 by lia. reflexivity.
      * set (Lp := lastProcessedBlock (run_ticks ws initial)) in *.
        assert (Hfirst1 : 1 <= first).
        { destruct (heads ws) as [|h0 hs']; [discriminate Hhd|].
          injection Hhd as ->. inversion Hpos; assumption. }
        assert (HLpH : Lp <= H).
        { apply (Hmono (List.length pre) (S (List.length pre))); [lia | |].
          - rewrite Hlast, <- app_assoc. rewrite nth_error_app2 by lia.
            rewrite Nat.sub_diag. reflexivity.
          - rewrite Hlast, <- app_assoc. rewrite nth_error_app2 by lia.
            replace (S (List.length pre) - List.length pre)%nat with 1%nat by lia.
            reflexivity. }
        unfold start_of in Tl, Tt.
        destruct (Z.eqb_spec Lp 0) as [Hz|_]; [lia|].
        exists first, (heads ws). split; [|split; [|split]].
        -- destruct (heads ws); [discriminate Hhd | exact Hhd].
        -- destruct (Z.gtb_spec H Lp) as [Hgt|Hng]; rewrite Tl; [reflexivity|].
           replace Lp with H by lia. reflexivity.
        -- rewrite Tl. destruct (Z.gtb_spec H Lp); lia.
        -- rewrite Tt, Tl, Hs. destruct (Z.gtb_spec H Lp) as [Hgt|Hng].
           ++ replace (Z.to_nat (H - first + 1))
                with (Z.to_nat (Lp - first + 1) + Z.to_nat (H - Lp))%nat by lia.
              rewrite block_range_app. do 2 f_equal. lia.
           ++ rewrite app_nil_r. reflexivity.
    + destruct (tick_rejects w (run_ticks ws initial) e Hpw' If Hhead)
        as [Tf [Tl Tt]].
      rewrite app_nil_r. split; [exact Tf|]. rewrite Tl, Tt. exact Icase.
Qed.

(** X10. Starting from the initial state, over any sequence of ticks whose
    head reads form a progression of heights of at least 1 (failed reads
    in between allowed), the blocks fetched are exactly the blocks from the
    first head read to the last, each once and in ascending order, and the
    watermark is the last head read. *)
Theorem sweep_fetches_each_block_once :
  forall ws,
    Forall sweep_private ws ->
    Forall (fun H => 1 <= H) (heads ws) ->
    nondecreasing (heads ws) ->
    lastProcessedBlock (run_ticks ws initial) = last (heads ws) 0
    /\ scanned_blocks (trace (run_ticks ws initial))
       = match heads ws with
         | [] => []
         | first :: _ =>
             block_range (Z.to_nat (last (heads ws) 0 - first + 1)) first
         end.
Proof.
  intros ws Hp Hpos Hmono.
  destruct (run_ticks_covered ws Hp Hpos Hmono)
    as [_ [[Hnil [Hz Hs]]|[first [pre [Hhd [Hlast [Hle Hs]]]]]]].
  - rewrite Hnil. split; [exact Hz | exact Hs].
  - assert (Hl : last (heads ws) 0 = lastProcessedBlock (run_ticks ws initial))
      by (rewrite Hlast at 1; apply last_last).
    rewrite Hl. split; [reflexivity|].
    destruct (heads ws) as [|h0 hs']; [discriminate Hhd|].
    injection Hhd as ->. exact Hs.
Qed.

Lemma three_ticks_positive : Forall (fun H => 1 <= H) (heads three_ticks).
Proof. repeat constructor; lia. Qed.

Lemma sweep_fetches_each_block_once_witness :
  lastProcessedBlock (run_ticks three_ticks initial) = 103
  /\ scanned_blocks (trace (run_ticks three_ticks initial)) = [100; 101; 102; 103].
Proof.
  exact (sweep_fetches_each_block_once three_ticks
           three_ticks_private three_ticks_positive three_ticks_progress).
Defined.

End Coverage.

(* ================================================================== *)
(** ** Further properties: idle ticks, skipped work, and the way to the API *)
(* ================================================================== *)

Section Quiet.

Local Open Scope list_scope.

Lemma await_call_quiet {A} w e (o : outcome A) s :
  (forall s, others w s = s) ->
  await w (call e o) s
  = (match o with Resolves a => Normal a | Rejects msg => Throw msg end,
     snd (emit e s)).
Proof.
  intros Hq. unfold await, call. erewrite bind_normal by reflexivity.
  destruct o; cbn [settle ret throw]; rewrite Hq; reflexivity.
Qed.

(** X11. Run on its own, a tick whose head read fails, or that reads a head
    not above a watermark already set, does nothing but that read: no block
    is fetched, the store and the watermark stay, the flag is down again. *)
Theorem tick_without_progress :
  forall w s,
    (forall s, others w s = s) ->
    isScanning s = false ->
    (exists e, provider_getBlockNumber w = Rejects e)
    \/ (exists H, provider_getBlockNumber w = Resolves H
                  /\ lastProcessedBlock s <> 0 /\ H <= lastProcessedBlock s) ->
    scanNewBlocks w s
    = (Normal tt,
       {| scans := scans s;
          lastProcessedBlock := lastProcessedBlock s;
          isScanning := false;
          trace := trace s ++ [EvGetBlockNumber] |}).
Proof.
  intros w s Hq Hf Hcase.
  rewrite (scanNewBlocks_idle w s Hf). unfold finally, try_catch, scanNewBlocks_try.
  destruct Hcase as [[e Hhead]|[H [Hhead [Hnz Hle]]]].
  - erewrite bind_throw by (rewrite await_call_quiet by exact Hq; rewrite Hhead; reflexivity).
    reflexivity.
  - erewrite bind_normal by (rewrite await_call_quiet by exact Hq; rewrite Hhead; reflexivity).
    erewrite bind_normal.
    2:{ unfold init_watermark. erewrite bind_normal by reflexivity.
        cbn [lastProcessedBlock snd emit modify set_isScanning].
        destruct (Z.eqb_spec (lastProcessedBlock s) 0) as [Hz|_]; [contradiction|].
        reflexivity. }
    unfold scan_range. erewrite bind_normal by reflexivity.
    cbn [lastProcessedBlock snd emit modify set_isScanning].
    destruct (Z.gtb_spec H (lastProcessedBlock s)) as [Hgt|_]; [lia|].
    reflexivity.
Qed.

Lemma tick_without_progress_witness :
  scanNewBlocks (chain_up 1) (tick (chain_up 1) initial)
  = (Normal tt,
     {| scans := [];
        lastProcessedBlock := 103;
        isScanning := false;
        trace := [EvGetBlockNumber; EvGetBlock 103; EvGetBlockNumber] |}).
Proof.
  apply (tick_without_progress (chain_up 1) (tick (chain_up 1) initial)
           (fun s => eq_refl) eq_refl).
  right. exists 103. split; [reflexivity|]. split; [discriminate | reflexivity].
Defined.

(** X12. A transaction whose receipt is missing, or names no new contract,
    costs the two fetches and nothing else: the scorer is not called and
    nothing is stored. *)
Theorem scanTransaction_skips_plain_transactions :
  forall w blockNumber txHash tx receipt s,
    (forall s, others w s = s) ->
    provider_getTransaction w txHash = Resolves tx ->
    provider_getTransactionReceipt w txHash = Resolves receipt ->
    receipt = None
    \/ (exists r, receipt = Some r /\ truthy (contractAddress r) = false) ->
    scanTransaction w blockNumber txHash s
    = (Normal tt,
       {| scans := scans s;
          lastProcessedBlock := lastProcessedBlock s;
          isScanning := isScanning s;
          trace := trace s ++ [EvGetTransaction txHash;
                               EvGetTransactionReceipt txHash] |}).
Proof.
  intros w blockNumber txHash tx receipt s Hq Htx Hrc Hplain.
  unfold scanTransaction.
  erewrite bind_normal by (rewrite await_call_quiet by exact Hq; rewrite Htx; reflexivity).
  erewrite bind_normal by (rewrite await_call_quiet by exact Hq; rewrite Hrc; reflexivity).
  destruct Hplain as [->|[r [-> Ht]]].
  - cbn. rewrite <- app_assoc. reflexivity.
  - rewrite Ht. cbn. rewrite <- app_assoc. reflexivity.
Qed.

Lemma scanTransaction_skips_plain_transactions_witness :
  scanTransaction (chain_up 1) 103 "0xaa" initial
  = (Normal tt,
     {| scans := []; lastProcessedBlock := 0; isScanning := false;
        trace := [EvGetTransaction "0xaa"; EvGetTransactionReceipt "0xaa"] |}).
Proof.
  apply (scanTransaction_skips_plain_transactions (chain_up 1) 103 "0xaa" None None
           initial (fun s => eq_refl) eq_refl eq_refl).
  left. reflexivity.
Defined.

(** X13. Run on its own, a tick that reads head [H] at or above the
    watermark while no block can be fetched (every fetch fails or returns
    [null]) still moves the watermark to [H] and stores nothing: those
    blocks are passed over for good. *)
Theorem unfetchable_blocks_are_passed_over :
  forall w s H,
    (forall s, others w s = s) ->
    (forall n, provider_getBlock w n = Resolves None
               \/ exists e, provider_getBlock w n = Rejects e) ->
    isScanning s = false ->
    provider_getBlockNumber w = Resolves H ->
    lastProcessedBlock s <= H ->
    scans (tick w s) = scans s /\ lastProcessedBlock (tick w s) = H.
Proof.
  intros w s H Hq Hblocks Hf Hhead Hle. split.
  - unfold tick.
    apply (keeps_scanNewBlocks_from w (fun s' => scans s' = scans s)).
    + intros s0 H0. rewrite Hq. exact H0.
    + intros e s0 _ H0. exact H0.
    + intros n s0 H0. exact H0.
    + intros b s0 H0. exact H0.
    + intros bn. unfold scanBlock.
      eapply keeps_try_catch with (V := fun _ => True);
        [|auto|intros e; apply keeps_ret; exact I].
      eapply keeps_bind.
      * apply keeps_await; [intros s0 H0; rewrite Hq; exact H0|].
        apply keeps_call. intros s0 H0. exact H0.
      * intros block Hb.
        destruct (Hblocks bn) as [Hn|[e He]]; rewrite Hb in *.
        -- injection Hn as ->. apply keeps_ret. exact I.
        -- discriminate He.
    + reflexivity.
  - assert (Hp : sweep_private w).
    { intros s0 H0. rewrite Hq. repeat split. exact H0. }
    destruct (tick_resolves w s H Hp Hf Hhead) as [_ [Hl _]].
    rewrite Hl. unfold start_of.
    destruct (Z.eqb_spec (lastProcessedBlock s) 0) as [Hz|Hz].
    + destruct (Z.gtb_spec H (H - 1)); lia.
    + destruct (Z.gtb_spec H (lastProcessedBlock s)); lia.
Qed.

Lemma unfetchable_blocks_are_passed_over_witness :
  scans (tick (with_head (Resolves 103) offline) initial) = []
  /\ lastProcessedBlock (tick (with_head (Resolves 103) offline) initial) = 103.
Proof.
  apply (unfetchable_blocks_are_passed_over (with_head (Resolves 103) offline)
           initial 103 (fun s => eq_refl)).
  - intros n. right. exists "ECONNREFUSED". reflexivity.
  - reflexivity.
  - reflexivity.
  - cbn. lia.
Defined.

(** X14. A request fulfilled with a successful receipt, for a target the
    store did not hold, is served back: as long as [tokenOf] still returns
    0, [GET /api/contract-status] for the target in any letter case
    answers with the score and flags that were submitted, and
    [GET /api/recent-scans] lists the new entry first. *)
Theorem fulfilled_request_is_served :
  forall w requestId target requester fee response report tx receipt s v address,
    (forall s, others w s = s) ->
    axios_get w default_chainId target = Resolves response ->
    response (JS.toLowerCase target) = Some report ->
    contract_fulfillAudit w requestId (score (score_report report))
      (isHoneypot (score_report report)) (isMintable (score_report report))
      (ownerCanWithdraw (score_report report)) = Resolves tx ->
    tx_wait w (hash tx) = Resolves receipt ->
    status receipt = 1 ->
    Forall (fun x => ~ names target x) (scans s) ->
    eq_ignoring_case target address ->
    contract_tokenOf v address = Resolves 0 ->
    let r := score_report report in
    let s' := snd (onAuditRequested w requestId target requester fee s) in
    fst (api_contract_status w v address s')
    = Normal (Json {| ContractStatus.success := true;
                      ContractStatus.address := address;
                      ContractStatus.hasSBT := false;
                      ContractStatus.auditData :=
                        Some (FromStore (score r) (isHoneypot r) (isMintable r)
                                (ownerCanWithdraw r) (now w)) |})
    /\ exists body,
         fst (api_recent_scans None s') = Normal (Json body)
         /\ option_map Scan.contract_address (hd_error (RecentScans.contracts body))
            = Some target
         /\ option_map Scan.has_sbt (hd_error (RecentScans.contracts body)) = Some true.
Proof.
  intros w requestId target requester fee response report tx receipt s v address
    Hq Hget Hrep Hsend Hwait Hst Hfresh Hcase Htok r s'.
  destruct (onAuditRequested_report w requestId target requester fee
              response report tx receipt s Hq Hget Hrep Hsend Hwait) as [_ Hs].
  fold r s' in Hs. rewrite Hst in Hs. cbn [Z.eqb Pos.eqb] in Hs.
  pose proof (eq_ignoring_case_lower _ _ Hcase) as Hlow.
  split.
  - unfold api_contract_status, try_catch.
    erewrite bind_normal by (rewrite settle_await, Htok; reflexivity).
    cbn [Z.gtb Z.compare]. rewrite Hq.
    erewrite bind_normal.
    2:{ erewrite bind_normal by reflexivity. cbn beta. rewrite Hs.
        rewrite getScan_fresh.
        - reflexivity.
        - unfold names. cbn [Scan.contract_address]. exact Hlow.
        - eapply Forall_impl; [|exact Hfresh].
          intros x Hx Hn. apply Hx. unfold names in *. congruence. }
    reflexivity.
  - eexists. split; [reflexivity|].
    cbn [RecentScans.contracts]. rewrite Hs.
    change (JSGlobal.or_50 (JSGlobal.parseInt None)) with 50.
    rewrite (getRecent_head (scans s) _ 50) by lia.
    split; reflexivity.
Qed.

Lemma fulfilled_request_is_served_witness :
  let s' := snd (onAuditRequested deployment_world 7 sample_address "0xd0" 1 initial) in
  fst (api_contract_status deployment_world no_token
         "0xABC0000000000000000000000000000000000001" s')
  = Normal (Json {| ContractStatus.success := true;
                    ContractStatus.address := "0xABC0000000000000000000000000000000000001";
                    ContractStatus.hasSBT := false;
                    ContractStatus.auditData :=
                      Some (FromStore 50 false true false "2024-01-01T00:00:00.000Z") |}).
Proof.
  intros s'.
  refine (proj1 (fulfilled_request_is_served deployment_world 7 sample_address "0xd0" 1
           (fun key => if (key =? JS.toLowerCase sample_address)%string
                       then Some scenario_report else None)
           scenario_report {| hash := "0xfeed" |}
           {| status := 1; contractAddress := None |} initial no_token
           "0xABC0000000000000000000000000000000000001"
           (fun s => eq_refl) eq_refl eq_refl eq_refl eq_refl eq_refl
           (Forall_nil _) _ eq_refl)).
  unfold sample_address.
  repeat (apply eic_cons;
          [first [left; reflexivity | right; left; split; reflexivity
                 | right; right; split; reflexivity]|]).
  apply eic_nil.
Defined.

End Quiet.

Section Creation.

Local Open Scope list_scope.

(** X15. Run on its own, scanning a transaction that created a contract
    fetches its body and receipt and asks the scorer once; when the scorer
    has a report the contract is recorded under the receipt's address with
    the report's score and flags, the block number, the sender as deployer
    and [has_sbt] false; when it has none, nothing is recorded. *)
Theorem scanTransaction_records_creation :
  forall w blockNumber txHash tx receipt address response s,
    (forall s, others w s = s) ->
    provider_getTransaction w txHash = Resolves (Some tx) ->
    provider_getTransactionReceipt w txHash = Resolves (Some receipt) ->
    contractAddress receipt = Some address ->
    address <> EmptyString ->
    axios_get w default_chainId address = Resolves response ->
    let s' := snd (scanTransaction w blockNumber txHash s) in
    fst (scanTransaction w blockNumber txHash s) = Normal tt
    /\ trace s' = trace s ++ [EvGetTransaction txHash;
                              EvGetTransactionReceipt txHash;
                              EvAxiosGet default_chainId address]
    /\ scans s'
       = match response (JS.toLowerCase address) with
         | Some report =>
             inMemoryDB.addScan (scans s)
               {| Scan.contract_address := address;
                  Scan.score := score (score_report report);
                  Scan.is_honeypot := isHoneypot (score_report report);
                  Scan.is_mintable := isMintable (score_report report);
                  Scan.owner_can_withdraw := ownerCanWithdraw (score_report report);
                  Scan.block_number := Some blockNumber;
                  Scan.deployer := Some (from tx);
                  Scan.has_sbt := false;
                  Scan.scanned_at := now w |}
         | None => scans s
         end.
Proof.
  intros w blockNumber txHash tx receipt address response s
    Hq Htx Hrc Haddr Hne Hget s'. subst s'.
  assert (Ht : truthy (contractAddress receipt) = true).
  { rewrite Haddr. cbn. destruct address; [contradiction | reflexivity]. }
  unfold scanTransaction.
  erewrite bind_normal by (rewrite await_call_quiet by exact Hq; rewrite Htx; reflexivity).
  erewrite bind_normal by (rewrite await_call_quiet by exact Hq; rewrite Hrc; reflexivity).
  cbn beta iota. rewrite Ht, Haddr.
  erewrite bind_normal by reflexivity.
  assert (Hscan : forall s0,
    await w (scanWithGoPlus w address default_chainId) s0
    = (Normal (option_map score_report (response (JS.toLowerCase address))),
       snd (emit (EvAxiosGet default_chainId address) s0))).
  { intros s0. unfold await, scanWithGoPlus, try_catch.
    erewrite bind_normal
      by (rewrite await_call_quiet by exact Hq; rewrite Hget; reflexivity).
    destruct (response (JS.toLowerCase address)); cbn [ret option_map];
      rewrite Hq; reflexivity. }
  erewrite bind_normal by apply Hscan.
  destruct (response (JS.toLowerCase address)) as [report|]; cbn [option_map].
  - cbn -[score_report inMemoryDB.addScan]. rewrite <- !app_assoc.
    repeat split; reflexivity.
  - cbn. rewrite <- !app_assoc. repeat split; reflexivity.
Qed.

Lemma scanTransaction_records_creation_witness :
  let s' := snd (scanTransaction deployment_world 103 "0xaa" initial) in
  fst (scanTransaction deployment_world 103 "0xaa" initial) = Normal tt
  /\ trace s' = [EvGetTransaction "0xaa"; EvGetTransactionReceipt "0xaa";
                 EvAxiosGet default_chainId sample_address]
  /\ map Scan.score (scans s') = [50].
Proof.
  intros s'.
  destruct (scanTransaction_records_creation deployment_world 103 "0xaa"
              {| from := "0xd0" |}
              {| status := 1; contractAddress := Some sample_address |}
              sample_address
              (fun key => if (key =? JS.toLowerCase sample_address)%string
                          then Some scenario_report else None)
              initial (fun s => eq_refl) eq_refl eq_refl eq_refl
              ltac:(discriminate) eq_refl) as [H1 [H2 H3]].
  fold s' in H2, H3. split; [exact H1|]. split; [exact H2|].
  rewrite H3. vm_compute. reflexivity.
Defined.

End Creation.
